(** * pgsql-postal: the marshaling layer of postal.c

    A shallow embedding of [src/postal.c]: the JSON string escaper
    [escape_json_string], the two SQL-callable marshalers
    [postal_normalize] and [postal_parse], and the load hook [_PG_init].

    Conventions.
    - A byte is a [Byte.byte]; a [char *] argument is the list of bytes
      stored at the pointer, and the C string it denotes is the prefix before
      the first NUL ([c_str]).  A list that holds no NUL denotes the string
      whose terminator follows the listed bytes.
    - [int] is a 32-bit signed integer kept in [Z]; overflowing it is
      undefined behaviour.  [size_t] is the 64-bit unsigned integer of an LP64
      platform; its arithmetic wraps modulo [2^64].
    - A buffer obtained from [palloc] is a list of cells, [None] while the
      cell is uninitialised.
    - PostgreSQL and libpostal are not part of the repository; the few of
      their functions that postal.c calls are modelled next to their callers.
      The argument of a SQL function is its [text] datum, and the default
      options of libpostal are constants that the model leaves out.
    - [elog(ERROR, ...)] does not return: the error unwinds to the caller
      of the SQL function, and the calls made so far stay in the log. *)

From Stdlib Require Import ZArith NArith List Lia Bool.
From Stdlib Require Import Strings.Byte Strings.String.
From stdpp Require Import base option list.
Import ListNotations.

Local Open Scope Z_scope.
Local Set Warnings "-register-all".

(** ** Bytes *)

Abbreviation byte := Byte.byte.

#[global] Instance byte_eq_decision : EqDecision byte := Byte.byte_eq_dec.

Definition NUL : byte := x00.
Definition BACKSPACE : byte := x08.
Definition TAB : byte := x09.
Definition NEWLINE : byte := x0a.
Definition FORMFEED : byte := x0c.
Definition CR : byte := x0d.
Definition QUOTE : byte := x22.
Definition BACKSLASH : byte := x5c.

(** ** C strings *)

(** [strlen(str)]: the number of bytes before the first NUL. *)
Fixpoint strlen (str : list byte) : nat :=
  match str with
  | [] => O
  | c :: rest => if decide (c = NUL) then O else S (strlen rest)
  end.

(** The string a [char *] denotes. *)
Definition c_str (str : list byte) : list byte := take (strlen str) str.

(** ** Machine integers *)

Definition INT_MAX : Z := 2 ^ 31 - 1.
Definition SIZE_MAX : Z := 2 ^ 64 - 1.

(** Conversion to [size_t], and [size_t] arithmetic. *)
Definition to_size_t (z : Z) : Z := z mod (SIZE_MAX + 1).

(** [i++] on an [int]: signed overflow is undefined. *)
Definition int_succ (i : Z) : option Z :=
  if i + 1 <=? INT_MAX then Some (i + 1) else None.

(** ** Buffers *)

Abbreviation cbuf := (list (option byte)).

(** Reading a buffer as a C string: every cell up to the terminator has to
    be initialised, and the terminator has to lie inside the buffer. *)
Fixpoint read_cstring (buf : cbuf) : option (list byte) :=
  match buf with
  | [] => None
  | None :: _ => None
  | Some c :: rest =>
      if decide (c = NUL) then Some [] else cons c <$> read_cstring rest
  end.

(** ** escape_json_string (postal.c, lines 112-158)

    The local variables [j] and [pstr] are threaded as a pair; [None] is an
    undefined step (a store outside the buffer, a signed overflow, a read
    past the input). *)

(** [pstr[j++] = c] *)
Definition store_inc (c : byte) (st : Z * cbuf) : option (Z * cbuf) :=
  let '(j, pstr) := st in
  if (0 <=? j) && (j <? Z.of_nat (length pstr)) then
    j' ← int_succ j;
    Some (j', <[Z.to_nat j := Some c]> pstr)
  else None.

(** The [switch (ch)] of lines 121-153. *)
Definition escape_switch (ch : byte) (st : Z * cbuf) : option (Z * cbuf) :=
  match ch with
  | x5c => st ← store_inc BACKSLASH st; store_inc BACKSLASH st
  | x22 => st ← store_inc BACKSLASH st; store_inc QUOTE st
  | x0a => st ← store_inc BACKSLASH st; store_inc x6e st
  | x0d => st ← store_inc BACKSLASH st; store_inc x72 st
  | x09 => st ← store_inc BACKSLASH st; store_inc x74 st
  | x08 => st ← store_inc BACKSLASH st; store_inc x62 st
  | x0c => st ← store_inc BACKSLASH st; store_inc x66 st
  | _ => store_inc ch st
  end.

(** The [for] loop of lines 118-155, entered at its test [i < str_len].
    The result holds [i], [j] and [pstr] when the loop is left, by its test
    or by the [break] of line 154.  [fuel] bounds the number of iterations. *)
Fixpoint escape_for (fuel : nat) (str : list byte) (str_len pstr_len : Z)
    (i : Z) (st : Z * cbuf) : option (Z * (Z * cbuf)) :=
  if to_size_t i <? str_len then
    match fuel with
    | O => None
    | S fuel =>
        ch ← str !! Z.to_nat i;
        st ← escape_switch ch st;
        if to_size_t st.1 =? pstr_len then Some (i, st)
        else i ← int_succ i; escape_for fuel str str_len pstr_len i st
    end
  else Some (i, st).

(** ** The host: errors, allocation, and the log of external calls *)

(** Calls into libpostal, as they are logged. *)
Inductive ext_call :=
  | Ev_setup | Ev_setup_parser | Ev_setup_language_classifier
  | Ev_teardown | Ev_teardown_parser | Ev_teardown_language_classifier
  | Ev_expand_address | Ev_expansion_array_destroy
  | Ev_parse_address | Ev_address_parser_response_destroy.

#[global] Instance ext_call_eq_decision : EqDecision ext_call.
Proof. solve_decision. Defined.

(** How a call can fail to return: [elog(ERROR, msg)] unwinds to the
    caller of the SQL function; [Undefined] is C undefined behaviour;
    [OutOfFuel] is a loop of the model that ran out of iterations. *)
Inductive failure :=
  | ElogError (msg : string)
  | Undefined
  | OutOfFuel.

Inductive outcome (A : Type) :=
  | Ret (a : A)
  | Raise (f : failure).
Arguments Ret {A} a.
Arguments Raise {A} f.

(** [oom_after = Some n]: the host serves [n] more allocation requests and
    raises an out-of-memory error at the next one; [None]: it never runs out.
    [ext_calls] lists the libpostal calls made so far, oldest first. *)
Record host := Host {
  oom_after : option nat;
  ext_calls : list ext_call
}.

Definition M (A : Type) : Type := host → outcome A * host.

Definition ret {A} (a : A) : M A := λ h, (Ret a, h).

Definition bind {A B} (m : M A) (k : A → M B) : M B :=
  λ h, match m h with
       | (Ret a, h') => k a h'
       | (Raise f, h') => (Raise f, h')
       end.

Definition raise {A} (f : failure) : M A := λ h, (Raise f, h).

(** [elog(ERROR, msg)] *)
Definition elog_ERROR {A} (msg : string) : M A := raise (ElogError msg).

(** A pure step that may be undefined. *)
Definition lift {A} (o : option A) : M A :=
  match o with
  | Some a => ret a
  | None => raise Undefined
  end.

Definition log_call (e : ext_call) : M unit :=
  λ h, (Ret tt, Host (oom_after h) (ext_calls h ++ [e])).

Declare Scope host_scope.
Delimit Scope host_scope with host.
Notation "x <- m ;; k" := (bind m (λ x, k))
  (at level 100, m at next level, right associativity) : host_scope.
Notation "m ;; k" := (bind m (λ _, k))
  (at level 100, right associativity) : host_scope.
Local Open Scope host_scope.

(** PostgreSQL's [MaxAllocSize] (memutils.h): [palloc] refuses larger
    requests. *)
Definition MaxAllocSize : Z := 1073741823.

(** A host routine that may have to allocate. *)
Definition may_alloc : M unit :=
  λ h, match oom_after h with
       | Some O => (Raise (ElogError "out of memory"), h)
       | Some (S n) => (Ret tt, Host (Some n) (ext_calls h))
       | None => (Ret tt, h)
       end.

(** [palloc(size)], seen as an array of cells of [elt_size] bytes each. *)
Definition palloc {A} (elt_size size : Z) : M (list (option A)) :=
  if size <=? MaxAllocSize then
    may_alloc ;; ret (replicate (Z.to_nat (size / elt_size)) None)
  else elog_ERROR "invalid memory alloc request size".

Definition pfree {A} (p : A) : M unit := ret tt.

(** The values of [i], [j] and [pstr] at [return pstr] (line 157). *)
Definition escape_json_string_vars (str : list byte) : M (Z * (Z * cbuf)) :=
  let str_len := Z.of_nat (strlen str) in
  let pstr_len := to_size_t (2 * to_size_t (str_len + 1)) in
  pstr <- palloc 1 pstr_len ;;
  r <- lift (escape_for (strlen str) str str_len pstr_len 0 (0, pstr)) ;;
  let '(i, st) := r in
  st <- lift (store_inc NUL st) ;;
  ret (i, st).

Definition escape_json_string (str : list byte) : M cbuf :=
  r <- escape_json_string_vars str ;;
  let '(_, (_, pstr)) := r in
  ret pstr.

(** ** The escaping table of the specification (section 4.2)

    Written from the table, not from the code: each input byte maps to one
    output unit, two characters for the seven special bytes and the byte
    itself for any other. *)

Definition is_special (ch : byte) : bool :=
  bool_decide (ch ∈ [BACKSLASH; QUOTE; NEWLINE; CR; TAB; BACKSPACE; FORMFEED]).

Definition escaping_table (ch : byte) : list byte :=
  if decide (ch = BACKSLASH) then [BACKSLASH; BACKSLASH]
  else if decide (ch = QUOTE) then [BACKSLASH; QUOTE]
  else if decide (ch = NEWLINE) then [BACKSLASH; x6e]
  else if decide (ch = CR) then [BACKSLASH; x72]
  else if decide (ch = TAB) then [BACKSLASH; x74]
  else if decide (ch = BACKSPACE) then [BACKSLASH; x62]
  else if decide (ch = FORMFEED) then [BACKSLASH; x66]
  else [ch].

(** The escaped form of a whole string, unit after unit. *)
Definition escaped (s : list byte) : list byte := flat_map escaping_table s.

(** Storing a run of bytes: [pstr[j++] = c] for each [c] in turn. *)
Fixpoint store_all (cs : list byte) (st : Z * cbuf) : option (Z * cbuf) :=
  match cs with
  | [] => Some st
  | c :: cs => st ← store_inc c st; store_all cs st
  end.

(** The state of [j] and [pstr] once [out] has been written to a buffer of
    [size] cells. *)
Definition written (size : nat) (out : list byte) : Z * cbuf :=
  (Z.of_nat (length out),
   (Some <$> out) ++ replicate (size - length out)%nat None).

(** The host after it has served one allocation request. *)
Definition served (h : host) : host :=
  Host (Nat.pred <$> oom_after h) (ext_calls h).

(** The size of the largest object of an LP64 platform. *)
Definition PTRDIFF_MAX : Z := 2 ^ 63 - 1.

(** ** Host values and routines used by the marshalers *)

(** A [text] datum: its payload bytes. *)
Abbreviation text := (list byte).

(** [text_to_cstring]: a freshly allocated, NUL-terminated copy. *)
Definition text_to_cstring (t : text) : M (list byte) :=
  may_alloc ;; ret (t ++ [NUL]).

(** [cstring_to_text]: a freshly allocated [text] holding the C string. *)
Definition cstring_to_text (s : list byte) : M text :=
  may_alloc ;; ret (c_str s).

(** [get_typlenbyvalalign(TEXTOID, ...)]: the catalog entry of [text]
    (variable length, by reference, int alignment). *)
Definition get_typlenbyvalalign_TEXTOID : M (Z * bool * byte) :=
  ret (-1, false, x69).

(** [arr_elems[i] = d] *)
Definition store_at {A} (arr : list (option A)) (i : Z) (d : A)
  : option (list (option A)) :=
  if (0 <=? i) && (i <? Z.of_nat (length arr))
  then Some (<[Z.to_nat i := Some d]> arr) else None.

(** [construct_array(elems, nelems, ...)]: a full copy of the first
    [nelems] cells, which have to be initialised. *)
Definition construct_array {A} (elems : list (option A)) (nelems : Z)
  : M (list A) :=
  may_alloc ;;
  if Z.of_nat (length elems) <? nelems then raise Undefined
  else lift (mapM id (take (Z.to_nat nelems) elems)).

(** A [StringInfo] is modelled by the bytes it holds. *)
Definition initStringInfo : M (list byte) := may_alloc ;; ret [].

Definition appendStringInfoChar (strbuf : list byte) (ch : byte)
  : M (list byte) :=
  may_alloc ;; ret (strbuf ++ [ch]).

(** The [appendStringInfo] of line 189: the label between quotes, a colon,
    and the component between quotes; each [%s] of the format prints the C
    string found at its argument. *)
Definition appendStringInfo_member (strbuf : list byte)
    (label : list byte) (component : cbuf) : M (list byte) :=
  may_alloc ;;
  value <- lift (read_cstring component) ;;
  ret (strbuf ++ [QUOTE] ++ c_str label ++ [QUOTE; x3a; QUOTE] ++ value ++ [QUOTE]).

(** ** JSON, as the host's [jsonb_in] reads it

    A recursive-descent reader of RFC 8259 text in a UTF-8 database.
    Object members are kept in document order; the sorting and merging of
    keys that jsonb does afterwards is not modelled. *)

Inductive json :=
  | JNull
  | JBool (b : bool)
  | JNumber (literal : list byte)
  | JString (s : list byte)
  | JArray (items : list json)
  | JObject (members : list (list byte * json)).

Definition byte_of_N (n : N) : byte := default x00 (Byte.of_N n).

Definition is_json_ws (c : byte) : bool :=
  bool_decide (c ∈ [x20; TAB; NEWLINE; CR]).

Fixpoint skip_ws (s : list byte) : list byte :=
  match s with
  | c :: rest => if is_json_ws c then skip_ws rest else s
  | [] => []
  end.

Definition hex_digit (c : byte) : option N :=
  let n := Byte.to_N c in
  if ((48 <=? n) && (n <=? 57))%N then Some (n - 48)%N
  else if ((65 <=? n) && (n <=? 70))%N then Some (n - 55)%N
  else if ((97 <=? n) && (n <=? 102))%N then Some (n - 87)%N
  else None.
Arguments hex_digit c : simpl never.

Definition hex4 (a b c d : byte) : option N :=
  a ← hex_digit a; b ← hex_digit b; c ← hex_digit c; d ← hex_digit d;
  Some (((a * 16 + b) * 16 + c) * 16 + d)%N.

(** The UTF-8 encoding of a code point. *)
Definition utf8_encode (cp : N) : list byte :=
  (if cp <? 128 then [byte_of_N cp]
   else if cp <? 2048 then
     [byte_of_N (192 + cp / 64); byte_of_N (128 + cp mod 64)]
   else if cp <? 65536 then
     [byte_of_N (224 + cp / 4096); byte_of_N (128 + (cp / 64) mod 64);
      byte_of_N (128 + cp mod 64)]
   else
     [byte_of_N (240 + cp / 262144); byte_of_N (128 + (cp / 4096) mod 64);
      byte_of_N (128 + (cp / 64) mod 64); byte_of_N (128 + cp mod 64)])%N.

(** The byte a two-character escape stands for. *)
Definition json_unescape (e : byte) : option byte :=
  if decide (e = QUOTE) then Some QUOTE
  else if decide (e = BACKSLASH) then Some BACKSLASH
  else if decide (e = x2f) then Some x2f
  else if decide (e = x62) then Some BACKSPACE
  else if decide (e = x66) then Some FORMFEED
  else if decide (e = x6e) then Some NEWLINE
  else if decide (e = x72) then Some CR
  else if decide (e = x74) then Some TAB
  else None.

(** The string lexer, entered after the opening quote: the decoded string
    and the input left after the closing quote.  A control character below
    0x20 has to be escaped; [hi] is a pending UTF-16 high surrogate. *)
Fixpoint json_lex_string (hi : option N) (s : list byte)
  : option (list byte * list byte) :=
  match s with
  | [] => None
  | c :: rest =>
      if decide (c = QUOTE) then
        match hi with Some _ => None | None => Some ([], rest) end
      else if decide (c = BACKSLASH) then
        match rest with
        | [] => None
        | e :: rest =>
            if decide (e = x75) then
              match rest with
              | h1 :: h2 :: h3 :: h4 :: rest =>
                  cp ← hex4 h1 h2 h3 h4;
                  if ((55296 <=? cp) && (cp <=? 56319))%N then
                    match hi with
                    | Some _ => None
                    | None => json_lex_string (Some cp) rest
                    end
                  else if ((56320 <=? cp) && (cp <=? 57343))%N then
                    match hi with
                    | Some h =>
                        '(v, rest) ← json_lex_string None rest;
                        Some (utf8_encode (65536 + (h - 55296) * 1024
                                           + (cp - 56320))%N ++ v, rest)
                    | None => None
                    end
                  else
                    match hi with
                    | Some _ => None
                    | None =>
                        if (cp =? 0)%N then None
                        else '(v, rest) ← json_lex_string None rest;
                             Some (utf8_encode cp ++ v, rest)
                    end
              | _ => None
              end
            else
              match hi with
              | Some _ => None
              | None =>
                  b ← json_unescape e;
                  '(v, rest) ← json_lex_string None rest;
                  Some (b :: v, rest)
              end
        end
      else if (Byte.to_N c <? 32)%N then None
      else
        match hi with
        | Some _ => None
        | None =>
            '(v, rest) ← json_lex_string None rest;
            Some (c :: v, rest)
        end
  end.

(** What a standard decoder of document strings does with the text between
    the two quotes of a string literal. *)
Definition json_decode_string (body : list byte) : option (list byte) :=
  match json_lex_string None (body ++ [QUOTE]) with
  | Some (v, []) => Some v
  | _ => None
  end.

Definition is_digit (c : byte) : bool :=
  ((48 <=? Byte.to_N c) && (Byte.to_N c <=? 57))%N.

Fixpoint span_digits (s : list byte) : list byte * list byte :=
  match s with
  | c :: rest =>
      if is_digit c then let '(ds, rest) := span_digits rest in (c :: ds, rest)
      else ([], s)
  | [] => ([], [])
  end.

(** The optional fraction and exponent of a number: the bytes of the part,
    or none when [s] does not start one. *)
Definition json_lex_fraction (s : list byte) : option (list byte * list byte) :=
  match s with
  | c :: rest =>
      if decide (c = x2e) then
        match span_digits rest with
        | ([], _) => None
        | (ds, rest) => Some (c :: ds, rest)
        end
      else Some ([], s)
  | [] => Some ([], s)
  end.

Definition json_lex_exponent (s : list byte) : option (list byte * list byte) :=
  match s with
  | c :: rest =>
      if bool_decide (c ∈ [x45; x65]) then
        let '(sign, rest) :=
          match rest with
          | g :: rest' =>
              if bool_decide (g ∈ [x2b; x2d]) then ([g], rest') else ([], rest)
          | [] => ([], rest)
          end in
        match span_digits rest with
        | ([], _) => None
        | (ds, rest) => Some (c :: sign ++ ds, rest)
        end
      else Some ([], s)
  | [] => Some ([], s)
  end.

(** A number: an optional minus sign, an integer part without a leading
    zero, an optional fraction and an optional exponent. *)
Definition json_lex_number (s : list byte) : option (list byte * list byte) :=
  let '(sign, s) :=
    match s with
    | c :: rest => if decide (c = x2d) then ([c], rest) else ([], s)
    | [] => ([], s)
    end in
  match span_digits s with
  | ([], _) => None
  | (d :: ds, s) =>
      if bool_decide (d = x30) && negb (bool_decide (ds = [])) then None
      else
        '(frac, s) ← json_lex_fraction s;
        '(exp, s) ← json_lex_exponent s;
        Some (sign ++ d :: ds ++ frac ++ exp, s)
  end.

(** [strip_prefix word s]: [s] without its prefix [word]. *)
Fixpoint strip_prefix (word s : list byte) : option (list byte) :=
  match word, s with
  | [], _ => Some s
  | w :: word, c :: s => if decide (w = c) then strip_prefix word s else None
  | _ :: _, [] => None
  end.

Definition json_lex_word (s : list byte) : option (json * list byte) :=
  match strip_prefix [x74; x72; x75; x65] s with
  | Some rest => Some (JBool true, rest)
  | None =>
  match strip_prefix [x66; x61; x6c; x73; x65] s with
  | Some rest => Some (JBool false, rest)
  | None =>
  match strip_prefix [x6e; x75; x6c; x6c] s with
  | Some rest => Some (JNull, rest)
  | None => None
  end end end.

(** The parser proper.  Of two calls in a row at least one reads a byte,
    so [fuel] above twice the length of the input is never used up. *)
Fixpoint json_parse_value (fuel : nat) (s : list byte)
  : option (json * list byte) :=
  match fuel with
  | O => None
  | S fuel =>
      match skip_ws s with
      | [] => None
      | c :: rest =>
          if decide (c = x7b) then
            match skip_ws rest with
            | c' :: rest' =>
                if decide (c' = x7d) then Some (JObject [], rest')
                else '(ms, rest) ← json_parse_members fuel rest;
                     Some (JObject ms, rest)
            | [] => None
            end
          else if decide (c = x5b) then
            match skip_ws rest with
            | c' :: rest' =>
                if decide (c' = x5d) then Some (JArray [], rest')
                else '(vs, rest) ← json_parse_elements fuel rest;
                     Some (JArray vs, rest)
            | [] => None
            end
          else if decide (c = QUOTE) then
            '(v, rest) ← json_lex_string None rest; Some (JString v, rest)
          else if is_digit c || bool_decide (c = x2d) then
            '(n, rest) ← json_lex_number (c :: rest); Some (JNumber n, rest)
          else json_lex_word (c :: rest)
      end
  end
with json_parse_members (fuel : nat) (s : list byte)
  : option (list (list byte * json) * list byte) :=
  match fuel with
  | O => None
  | S fuel =>
      match skip_ws s with
      | c :: rest =>
          if decide (c = QUOTE) then
            '(k, rest) ← json_lex_string None rest;
            match skip_ws rest with
            | c :: rest =>
                if decide (c = x3a) then
                  '(v, rest) ← json_parse_value fuel rest;
                  match skip_ws rest with
                  | c :: rest =>
                      if decide (c = x2c) then
                        '(ms, rest) ← json_parse_members fuel rest;
                        Some ((k, v) :: ms, rest)
                      else if decide (c = x7d) then Some ([(k, v)], rest)
                      else None
                  | [] => None
                  end
                else None
            | [] => None
            end
          else None
      | [] => None
      end
  end
with json_parse_elements (fuel : nat) (s : list byte)
  : option (list json * list byte) :=
  match fuel with
  | O => None
  | S fuel =>
      '(v, rest) ← json_parse_value fuel s;
      match skip_ws rest with
      | c :: rest =>
          if decide (c = x2c) then
            '(vs, rest) ← json_parse_elements fuel rest;
            Some (v :: vs, rest)
          else if decide (c = x5d) then Some ([v], rest)
          else None
      | [] => None
      end
  end.

(** A whole document: one value, then nothing but white space. *)
Definition json_parse (s : list byte) : option json :=
  match json_parse_value (S (length s + length s)) s with
  | Some (v, rest) =>
      match skip_ws rest with
      | [] => Some v
      | _ :: _ => None
      end
  | None => None
  end.

(** [DirectFunctionCall1(jsonb_in, CStringGetDatum(data))] *)
Definition jsonb_in (data : list byte) : M json :=
  may_alloc ;;
  match json_parse data with
  | Some v => ret v
  | None => elog_ERROR "invalid input syntax for type json"
  end.

(** ** libpostal

    The engine is a black box: whether each set-up call succeeds, and what
    the two address functions answer.  An expansion answer is the array
    [expansions] and the count written to [arr_nelems]. *)

Record libpostal_address_parser_response_t := {
  num_components : Z;
  components : list (list byte);
  labels : list (list byte)
}.

Record libpostal := {
  lp_setup : bool;
  lp_setup_parser : bool;
  lp_setup_language_classifier : bool;
  lp_expand_address : list byte → list (list byte) * Z;
  lp_parse_address : list byte → libpostal_address_parser_response_t
}.

Section postal.

Variable lp : libpostal.

Definition libpostal_setup : M bool :=
  log_call Ev_setup ;; ret (lp_setup lp).
Definition libpostal_setup_parser : M bool :=
  log_call Ev_setup_parser ;; ret (lp_setup_parser lp).
Definition libpostal_setup_language_classifier : M bool :=
  log_call Ev_setup_language_classifier ;;
  ret (lp_setup_language_classifier lp).

Definition libpostal_teardown : M unit := log_call Ev_teardown.
Definition libpostal_teardown_parser : M unit := log_call Ev_teardown_parser.
Definition libpostal_teardown_language_classifier : M unit :=
  log_call Ev_teardown_language_classifier.

Definition libpostal_expand_address (input : list byte)
  : M (list (list byte) * Z) :=
  log_call Ev_expand_address ;; ret (lp_expand_address lp input).

Definition libpostal_expansion_array_destroy
    (expansions : list (list byte)) (n : Z) : M unit :=
  log_call Ev_expansion_array_destroy.

Definition libpostal_parse_address (input : list byte)
  : M libpostal_address_parser_response_t :=
  log_call Ev_parse_address ;; ret (lp_parse_address lp input).

Definition libpostal_address_parser_response_destroy
    (parsed : libpostal_address_parser_response_t) : M unit :=
  log_call Ev_address_parser_response_destroy.

(** ** _PG_init and _PG_fini (lines 56-72) *)

(** [!a] and the short-circuit [a || b] of C, on calls. *)
Definition not_ (a : M bool) : M bool := r <- a ;; ret (negb r).
Definition or_else (a b : M bool) : M bool :=
  r <- a ;; if r then ret true else b.

Definition _PG_init : M unit :=
  failed <- or_else (not_ libpostal_setup)
           (or_else (not_ libpostal_setup_parser)
                    (not_ libpostal_setup_language_classifier)) ;;
  if failed then elog_ERROR "Failed to initialize libpostal."
  else ret tt.

Definition _PG_fini : M unit :=
  libpostal_teardown ;;
  libpostal_teardown_parser ;;
  libpostal_teardown_language_classifier.

(** ** postal_normalize (lines 81-109) *)

(** The loop of lines 97-100, entered at its test. *)
Fixpoint normalize_for (fuel : nat) (expansions : list (list byte))
    (arr_nelems : Z) (i : Z) (arr_elems : list (option text))
  : M (list (option text)) :=
  if i <? arr_nelems then
    match fuel with
    | O => raise OutOfFuel
    | S fuel =>
        expansion <- lift (expansions !! Z.to_nat i) ;;
        t <- cstring_to_text expansion ;;
        arr_elems <- lift (store_at arr_elems i t) ;;
        normalize_for fuel expansions arr_nelems (to_size_t (i + 1)) arr_elems
    end
  else ret arr_elems.

Definition postal_normalize (address : text) : M (list text) :=
  str <- text_to_cstring address ;;
  r <- libpostal_expand_address str ;;
  let '(expansions, arr_nelems) := r in
  arr_elems <- palloc 8 (to_size_t (8 * arr_nelems)) ;;
  get_typlenbyvalalign_TEXTOID ;;
  arr_elems <- normalize_for (Z.to_nat arr_nelems) expansions arr_nelems 0
                 arr_elems ;;
  arr <- construct_array arr_elems arr_nelems ;;
  libpostal_expansion_array_destroy expansions arr_nelems ;;
  ret arr.

(** ** postal_parse (lines 166-199) *)

(** The loop of lines 181-191, entered at its test. *)
Fixpoint parse_for (fuel : nat) (parsed : libpostal_address_parser_response_t)
    (i : Z) (strbuf : list byte) : M (list byte) :=
  if i <? num_components parsed then
    match fuel with
    | O => raise OutOfFuel
    | S fuel =>
        strbuf <- (if 0 <? i then appendStringInfoChar strbuf x2c
                   else ret strbuf) ;;
        str <- lift (components parsed !! Z.to_nat i) ;;
        component <- escape_json_string str ;;
        label <- lift (labels parsed !! Z.to_nat i) ;;
        strbuf <- appendStringInfo_member strbuf label component ;;
        pfree component ;;
        parse_for fuel parsed (to_size_t (i + 1)) strbuf
    end
  else ret strbuf.

(** The text handed to [jsonb_in], and the state it is built in: the body
    of [postal_parse] up to line 195. *)
Definition postal_parse_document (address : text) : M (list byte) :=
  str <- text_to_cstring address ;;
  parsed <- libpostal_parse_address str ;;
  strbuf <- initStringInfo ;;
  strbuf <- appendStringInfoChar strbuf x7b ;;
  strbuf <- parse_for (Z.to_nat (num_components parsed)) parsed 0 strbuf ;;
  strbuf <- appendStringInfoChar strbuf x7d ;;
  libpostal_address_parser_response_destroy parsed ;;
  ret strbuf.

Definition postal_parse (address : text) : M json :=
  strbuf <- postal_parse_document address ;;
  jsonb_in strbuf.

End postal.

(** ** The shape of an escaped string *)

(** The second byte of a two-byte escape sequence. *)
Definition is_escape_letter (c : byte) : bool :=
  bool_decide (c ∈ [BACKSLASH; QUOTE; x6e; x72; x74; x62; x66]).

(** [well_escaped s]: [s] splits, left to right, into units that are either
    a backslash followed by an escape letter, or one byte that is none of
    the seven special bytes.  A quote can then only be the second byte of a
    unit, and a backslash only the first or the second. *)
Fixpoint well_escaped (s : list byte) : bool :=
  match s with
  | [] => true
  | c :: rest =>
      if decide (c = BACKSLASH) then
        match rest with
        | e :: rest => is_escape_letter e && well_escaped rest
        | [] => false
        end
      else negb (is_special c) && well_escaped rest
  end.

(** Where a string literal ends: the index of the first quote of [s] that
    no backslash escapes. *)
Fixpoint literal_end (s : list byte) : option nat :=
  match s with
  | [] => None
  | c :: rest =>
      if decide (c = QUOTE) then Some O
      else if decide (c = BACKSLASH) then
        match rest with
        | _ :: rest => (λ n, S (S n)) <$> literal_end rest
        | [] => None
        end
      else S <$> literal_end rest
  end.

(** A byte that JSON allows unescaped inside a string literal or that
    [escape_json_string] escapes: anything but the control characters below
    0x20 that the switch of lines 121-153 has no case for. *)
Definition is_json_safe (c : byte) : bool :=
  negb (Byte.to_N c <? 32)%N || is_special c.

(** ** Test doubles for the engine

    An engine that answers every request with the same values. *)
Definition engine_double (setup parser classifier : bool)
    (expansions : list (list byte)) (arr_nelems : Z)
    (parsed : libpostal_address_parser_response_t) : libpostal :=
  {| lp_setup := setup;
     lp_setup_parser := parser;
     lp_setup_language_classifier := classifier;
     lp_expand_address := λ _, (expansions, arr_nelems);
     lp_parse_address := λ _, parsed |}.

Definition no_components : libpostal_address_parser_response_t :=
  {| num_components := 0; components := []; labels := [] |}.

(** ** Acquisitions and releases in a log of calls *)

Definition count_call (e : ext_call) (log : list ext_call) : nat :=
  length (filter (λ c, c = e) log).

(** Every answer obtained from the engine has been released exactly once. *)
Definition releases_match (log : list ext_call) : bool :=
  bool_decide (count_call Ev_expand_address log
               = count_call Ev_expansion_array_destroy log)
  && bool_decide (count_call Ev_parse_address log
                  = count_call Ev_address_parser_response_destroy log).

(** A computation that makes no call into libpostal. *)
Definition quiet {A} (m : M A) : Prop :=
  ∀ h, ext_calls (m h).2 = ext_calls h.

(** An engine answering [parse_address] with the one component [component]
    under the label [road]. *)
Definition one_road (component : list byte)
  : libpostal_address_parser_response_t :=
  {| num_components := 1;
     components := [component];
     labels := [[x72; x6f; x61; x64]] |}.

(** What a call that acquires with [acquire] and releases with [release]
    may have added to the log of [h] when it ends in [r]: both calls, in
    this order, when it returns; nothing, or the acquisition alone, when it
    raises. *)
Definition released_on_return {A} (acquire release : ext_call) (h : host)
    (r : outcome A * host) : Prop :=
  match r with
  | (Ret _, h') => ext_calls h' = ext_calls h ++ [acquire; release]
  | (Raise _, h') =>
      ext_calls h' = ext_calls h ∨ ext_calls h' = ext_calls h ++ [acquire]
  end.

(** The same host with memory to spare. *)
Definition unbounded (h : host) : host := Host None (ext_calls h).

(** A computation whose returns do not depend on the memory left: what it
    returns from [h], it returns from [unbounded h]. *)
Definition budget_free {A} (m : M A) : Prop :=
  ∀ h a h', m h = (Ret a, h') → m (unbounded h) = (Ret a, unbounded h').

(** ** The text of a document, member by member *)

(** A byte that stands for itself in a JSON string literal. *)
Definition is_plain (c : byte) : bool :=
  negb (Byte.to_N c <? 32)%N
  && negb (bool_decide (c = QUOTE)) && negb (bool_decide (c = BACKSLASH)).

(** One member: the label between quotes, a colon, and the escaped
    component between quotes. *)
Definition member_text (m : list byte * list byte) : list byte :=
  QUOTE :: c_str m.1
    ++ QUOTE :: x3a :: QUOTE :: escaped (c_str m.2) ++ [QUOTE].

(** The members, each but the first after a comma. *)
Fixpoint members_text (first : bool) (ms : list (list byte * list byte))
  : list byte :=
  match ms with
  | [] => []
  | m :: ms =>
      (if first then [] else [x2c]) ++ member_text m ++ members_text false ms
  end.

(** The object the document stands for. *)
Definition members_json (ms : list (list byte * list byte))
  : list (list byte * json) :=
  (λ m, (c_str m.1, JString (c_str m.2))) <$> ms.

(** The pairs of a response: [labels[i]] with [components[i]]. *)
Definition response_members (parsed : libpostal_address_parser_response_t)
  : list (list byte * list byte) :=
  zip (labels parsed) (components parsed).

(** A member the escaper handles: a label of plain bytes, a component free
    of the control characters the escaper leaves raw. *)
Definition safe_member (m : list byte * list byte) : bool :=
  forallb is_plain (c_str m.1) && forallb is_json_safe (c_str m.2).

(** What the engine owes for a response: a count within [size_t] that is the
    length of both arrays, and components the escaper can allocate for. *)
Definition response_ok (parsed : libpostal_address_parser_response_t) : bool :=
  (num_components parsed =? Z.of_nat (length (components parsed)))
  && (num_components parsed <=? SIZE_MAX)
  && bool_decide (length (labels parsed) = length (components parsed))
  && forallb (λ c, 2 * (Z.of_nat (strlen c) + 1) <=? MaxAllocSize)
       (components parsed).

(** ** Sample values *)

(** The text of the scenario of the specification: an apostrophe, a
    semicolon, and [St] between two escaped quotes. *)
Definition scenario_text : list byte :=
  list_byte_of_string "O'Brien; 5 Main \" ++ [QUOTE]
    ++ list_byte_of_string "St\" ++ [QUOTE] ++ list_byte_of_string ".".

(** A response with a house number and a road. *)
Definition franklin_avenue : libpostal_address_parser_response_t :=
  {| num_components := 2;
     components := [list_byte_of_string "781";
                    list_byte_of_string "franklin ave"];
     labels := [list_byte_of_string "house_number";
                list_byte_of_string "road"] |}.

(** ** Further measures of the escaper *)

(** The number of bytes of [s] that the switch of lines 121-153 doubles. *)
Definition count_special (s : list byte) : nat :=
  length (List.filter is_special s).

(** Reading an escaped string back unit by unit, with no check at all: a
    backslash and the byte after it give the byte the pair stands for. *)
Fixpoint unescape (s : list byte) : list byte :=
  match s with
  | [] => []
  | c :: rest =>
      if decide (c = BACKSLASH) then
        match rest with
        | e :: rest => default e (json_unescape e) :: unescape rest
        | [] => [c]
        end
      else c :: unescape rest
  end.

(** No NUL among the bytes of [s]. *)
Definition NUL_free (s : list byte) : bool :=
  forallb (λ c, negb (bool_decide (c = NUL))) s.


(** * Properties *)

Create HintDb quiet.
Create HintDb budget.

Section escape_facts.

Lemma escape_switch_table ch st :
  escape_switch ch st = store_all (escaping_table ch) st.
Proof.
  destruct ch; cbv -[store_inc]; try reflexivity;
    repeat match goal with
           | |- context [store_inc ?c ?s] => destruct (store_inc c s)
           end; reflexivity.
Qed.

Lemma escaping_table_length ch :
  (1 ≤ length (escaping_table ch) ≤ 2)%nat.
Proof. destruct ch; vm_compute; lia. Qed.

Lemma escaping_table_plain ch :
  is_special ch = false → escaping_table ch = [ch].
Proof. destruct ch; vm_compute; intros H; try discriminate H; reflexivity. Qed.

Lemma escaping_table_no_NUL ch : ch ≠ NUL → NUL ∉ escaping_table ch.
Proof.
  intros Hch Hin. apply list_elem_of_In in Hin.
  destruct ch; vm_compute in Hin; intuition (try discriminate; try congruence).
Qed.

End escape_facts.

Section buffer_facts.

Lemma store_inc_written size out c :
  (length out < size)%nat →
  Z.of_nat (length out) + 1 ≤ INT_MAX →
  store_inc c (written size out) = Some (written size (out ++ [c])).
Proof.
  intros Hsize Hint. unfold store_inc, written.
  rewrite length_app, length_fmap, length_replicate.
  assert (Hin : (0 <=? Z.of_nat (length out))
              && (Z.of_nat (length out) <? Z.of_nat (length out + (size - length out)))
              = true).
  { apply andb_true_intro; split; [apply Z.leb_le | apply Z.ltb_lt]; lia. }
  rewrite Hin. unfold int_succ.
  destruct (Z.leb_spec (Z.of_nat (length out) + 1) INT_MAX) as [_|]; [|lia].
  cbn. f_equal. f_equal.
  - rewrite length_app. cbn. lia.
  - rewrite Nat2Z.id.
    replace (size - length out)%nat with (S (size - length (out ++ [c])))
      by (rewrite length_app; cbn; lia).
    cbn [replicate].
    rewrite insert_app_r_alt by (rewrite length_fmap; lia).
    rewrite length_fmap, Nat.sub_diag. cbn.
    rewrite fmap_app. cbn. rewrite <- app_assoc. reflexivity.
Qed.

Lemma store_all_written size cs : ∀ out,
  (length out + length cs ≤ size)%nat →
  Z.of_nat (length out + length cs) ≤ INT_MAX →
  store_all cs (written size out) = Some (written size (out ++ cs)).
Proof.
  induction cs as [|c cs IH]; intros out Hsize Hint; cbn [store_all].
  - rewrite app_nil_r. reflexivity.
  - cbn [length] in Hsize, Hint.
    rewrite store_inc_written by lia. cbn.
    rewrite IH by (rewrite length_app; cbn; lia).
    rewrite <- app_assoc. reflexivity.
Qed.

Lemma read_cstring_terminated out rest :
  NUL ∉ out → read_cstring ((Some <$> out) ++ Some NUL :: rest) = Some out.
Proof.
  induction out as [|c out IH]; intros Hnul; cbn.
  - reflexivity.
  - destruct (decide (c = NUL)) as [->|_].
    + exfalso. apply Hnul. left.
    + rewrite IH; [reflexivity|]. intros Hin. apply Hnul. right. exact Hin.
Qed.

End buffer_facts.

Section cstring_facts.

Lemma strlen_le str : (strlen str ≤ length str)%nat.
Proof.
  induction str as [|c str IH]; cbn; [lia|].
  destruct (decide (c = NUL)); lia.
Qed.

Lemma c_str_length str : length (c_str str) = strlen str.
Proof. unfold c_str. rewrite length_take. pose proof (strlen_le str). lia. Qed.

Lemma c_str_no_NUL str : NUL ∉ c_str str.
Proof.
  unfold c_str. induction str as [|c str IH]; cbn.
  - apply not_elem_of_nil.
  - destruct (decide (c = NUL)) as [|Hc]; cbn.
    + apply not_elem_of_nil.
    + intros [Heq|Hin]%elem_of_cons; [congruence | contradiction].
Qed.

Lemma c_str_lookup str i :
  (i < strlen str)%nat → str !! i = c_str str !! i.
Proof. intros Hi. unfold c_str. rewrite lookup_take_lt by exact Hi. reflexivity. Qed.

Lemma c_str_of_clean s : NUL ∉ s → c_str s = s.
Proof.
  unfold c_str. induction s as [|c s IH]; intros Hnul; cbn; [reflexivity|].
  destruct (decide (c = NUL)) as [->|_].
  - exfalso. apply Hnul. left.
  - cbn. f_equal. apply IH. intros Hin. apply Hnul. right. exact Hin.
Qed.

Lemma escaped_app s t : escaped (s ++ t) = escaped s ++ escaped t.
Proof. unfold escaped. apply flat_map_app. Qed.

Lemma escaped_length s :
  (length s ≤ length (escaped s) ≤ 2 * length s)%nat.
Proof.
  unfold escaped. induction s as [|c s IH]; cbn [flat_map length]; [lia|].
  rewrite length_app. pose proof (escaping_table_length c). lia.
Qed.

Lemma escaped_no_NUL s : NUL ∉ s → NUL ∉ escaped s.
Proof.
  unfold escaped. induction s as [|c s IH]; intros Hnul; cbn [flat_map].
  - apply not_elem_of_nil.
  - intros [Hin|Hin]%elem_of_app.
    + revert Hin. apply escaping_table_no_NUL. intros ->. apply Hnul. left.
    + revert Hin. apply IH. intros Hin. apply Hnul. right. exact Hin.
Qed.

End cstring_facts.

Section escape_loop_facts.

Lemma to_size_t_small z : 0 ≤ z ≤ SIZE_MAX → to_size_t z = z.
Proof. intros Hz. unfold to_size_t. apply Z.mod_small. lia. Qed.

Lemma escaped_snoc s ch : escaped (s ++ [ch]) = escaped s ++ escaping_table ch.
Proof. rewrite escaped_app. unfold escaped. cbn. rewrite app_nil_r. reflexivity. Qed.

(** Started with the first [i] bytes escaped, the loop of lines 118-155
    leaves by its test, at [i = str_len], with the whole string escaped. *)
Lemma escape_for_runs str size :
  (2 * strlen str < size)%nat →
  Z.of_nat size ≤ INT_MAX →
  ∀ d i, (i + d = strlen str)%nat →
    escape_for d str (Z.of_nat (strlen str)) (Z.of_nat size) (Z.of_nat i)
      (written size (escaped (take i (c_str str))))
    = Some (Z.of_nat (strlen str), written size (escaped (c_str str))).
Proof.
  intros Hsize Hint. unfold INT_MAX in Hint.
  assert (HSM : SIZE_MAX = 18446744073709551615) by reflexivity.
  induction d as [|d IH]; intros i Hi; cbn [escape_for].
  - rewrite to_size_t_small by lia.
    replace i with (strlen str) by lia. rewrite Z.ltb_irrefl.
    rewrite take_ge by (rewrite c_str_length; lia). reflexivity.
  - rewrite to_size_t_small by lia.
    destruct (Z.ltb_spec (Z.of_nat i) (Z.of_nat (strlen str))) as [_|]; [|lia].
    rewrite Nat2Z.id, c_str_lookup by lia.
    destruct (lookup_lt_is_Some_2 (c_str str) i) as [ch Hch];
      [rewrite c_str_length; lia|].
    rewrite Hch. cbn [mbind option_bind].
    pose proof (escaping_table_length ch) as Hlen.
    pose proof (escaped_length (take i (c_str str))) as Hout.
    rewrite length_take, c_str_length in Hout.
    rewrite escape_switch_table, store_all_written by (unfold INT_MAX; lia).
    cbn [mbind option_bind].
    rewrite <- escaped_snoc, <- (take_S_r _ _ _ Hch).
    pose proof (escaped_length (take (S i) (c_str str))) as Hout'.
    rewrite length_take, c_str_length in Hout'.
    unfold written at 1. cbn [fst].
    rewrite to_size_t_small by lia.
    destruct (Z.eqb_spec (Z.of_nat (length (escaped (take (S i) (c_str str)))))
                (Z.of_nat size)) as [|_]; [lia|].
    unfold int_succ. unfold INT_MAX.
    destruct (Z.leb_spec (Z.of_nat i + 1) (2 ^ 31 - 1)) as [_|]; [|lia].
    cbn [mbind option_bind].
    replace (Z.of_nat i + 1) with (Z.of_nat (S i)) by lia.
    fold (written size (escaped (take (S i) (c_str str)))).
    apply IH. lia.
Qed.

End escape_loop_facts.

Section escape_call_facts.

Lemma may_alloc_served h :
  oom_after h ≠ Some O → may_alloc h = (Ret tt, served h).
Proof.
  unfold may_alloc, served. destruct h as [[[|n]|] calls]; cbn; intros Hh;
    [congruence | reflexivity | reflexivity].
Qed.

Lemma may_alloc_exhausted h :
  oom_after h = Some O → may_alloc h = (Raise (ElogError "out of memory"), h).
Proof. unfold may_alloc. intros ->. reflexivity. Qed.

Lemma written_nil size : written size [] = (0, replicate size (@None byte)).
Proof. unfold written. cbn. rewrite Nat.sub_0_r. reflexivity. Qed.

Lemma pstr_len_exact n :
  Z.of_nat n < PTRDIFF_MAX →
  to_size_t (2 * to_size_t (Z.of_nat n + 1)) = Z.of_nat (2 * (n + 1)).
Proof.
  unfold PTRDIFF_MAX. intros Hn.
  assert (HSM : SIZE_MAX = 18446744073709551615) by reflexivity.
  rewrite (to_size_t_small (Z.of_nat n + 1)) by lia.
  rewrite to_size_t_small by lia. lia.
Qed.

(** When the buffer can be allocated, the call returns with [i = str_len],
    and [pstr] holds the escaped string and its terminator. *)
Lemma escape_json_string_vars_ok str h :
  2 * (Z.of_nat (strlen str) + 1) ≤ MaxAllocSize →
  oom_after h ≠ Some O →
  escape_json_string_vars str h =
    (Ret (Z.of_nat (strlen str),
          written (2 * (strlen str + 1)) (escaped (c_str str) ++ [NUL])),
     served h).
Proof.
  intros Hfit Hmem. unfold MaxAllocSize in Hfit.
  unfold escape_json_string_vars.
  rewrite pstr_len_exact by (unfold PTRDIFF_MAX; lia).
  unfold palloc, bind at 1.
  destruct (Z.leb_spec (Z.of_nat (2 * (strlen str + 1))) MaxAllocSize) as [_|];
    [|unfold MaxAllocSize in *; lia].
  unfold bind at 1. rewrite may_alloc_served by exact Hmem.
  unfold ret at 1. rewrite Z.div_1_r, Nat2Z.id.
  rewrite <- written_nil.
  pose proof (escape_for_runs str (2 * (strlen str + 1))) as Hrun.
  specialize (Hrun ltac:(lia) ltac:(unfold INT_MAX; lia) (strlen str) O eq_refl).
  change (escaped (take 0 (c_str str))) with (@nil byte) in Hrun.
  change (Z.of_nat 0) with 0 in Hrun.
  unfold bind at 1. rewrite Hrun. cbn [lift ret].
  pose proof (escaped_length (c_str str)) as Hout. rewrite c_str_length in Hout.
  unfold bind at 1.
  rewrite store_inc_written by (unfold INT_MAX; lia).
  reflexivity.
Qed.

Lemma escape_json_string_vars_too_big str h :
  Z.of_nat (strlen str) < PTRDIFF_MAX →
  MaxAllocSize < 2 * (Z.of_nat (strlen str) + 1) →
  escape_json_string_vars str h =
    (Raise (ElogError "invalid memory alloc request size"), h).
Proof.
  intros Hobj Hbig. unfold escape_json_string_vars.
  rewrite pstr_len_exact by exact Hobj.
  unfold palloc, bind at 1.
  destruct (Z.leb_spec (Z.of_nat (2 * (strlen str + 1))) MaxAllocSize) as [|_];
    [lia | reflexivity].
Qed.

Lemma escape_json_string_vars_oom str h :
  2 * (Z.of_nat (strlen str) + 1) ≤ MaxAllocSize →
  oom_after h = Some O →
  escape_json_string_vars str h = (Raise (ElogError "out of memory"), h).
Proof.
  intros Hfit Hmem. unfold MaxAllocSize in Hfit.
  unfold escape_json_string_vars.
  rewrite pstr_len_exact by (unfold PTRDIFF_MAX; lia).
  unfold palloc, bind at 1.
  destruct (Z.leb_spec (Z.of_nat (2 * (strlen str + 1))) MaxAllocSize) as [_|];
    [|unfold MaxAllocSize in *; lia].
  unfold bind at 1. rewrite may_alloc_exhausted by exact Hmem. reflexivity.
Qed.

(** Reading back what [escape_json_string] returns. *)
Lemma read_written_terminated size out :
  NUL ∉ out → read_cstring (written size (out ++ [NUL])).2 = Some out.
Proof.
  intros Hnul. unfold written. cbn [snd].
  rewrite fmap_app. cbn. rewrite <- app_assoc. cbn.
  apply read_cstring_terminated. exact Hnul.
Qed.

Lemma escape_json_string_ok str h :
  2 * (Z.of_nat (strlen str) + 1) ≤ MaxAllocSize →
  oom_after h ≠ Some O →
  ∃ pstr, escape_json_string str h = (Ret pstr, served h)
        ∧ read_cstring pstr = Some (escaped (c_str str)).
Proof.
  intros Hfit Hmem. eexists. split.
  - unfold escape_json_string, bind.
    rewrite escape_json_string_vars_ok by assumption. unfold written. reflexivity.
  - apply (read_written_terminated (2 * (strlen str + 1))).
    apply escaped_no_NUL, c_str_no_NUL.
Qed.

End escape_call_facts.

Section escape_shape_facts.

Lemma escaped_plain s :
  (∀ ch, ch ∈ s → is_special ch = false) → escaped s = s.
Proof.
  unfold escaped. induction s as [|c s IH]; intros Hs; cbn [flat_map].
  - reflexivity.
  - rewrite escaping_table_plain by (apply Hs; left).
    rewrite IH by (intros ch Hch; apply Hs; right; exact Hch). reflexivity.
Qed.

Lemma escaping_table_no_raw_control ch c :
  c ∈ escaping_table ch → c ∉ [NEWLINE; CR; TAB; BACKSPACE; FORMFEED].
Proof.
  intros Hc%list_elem_of_In Hin%list_elem_of_In.
  destruct ch; vm_compute in Hc; intuition (subst; vm_compute in Hin;
    intuition discriminate).
Qed.

Lemma escaped_no_raw_control s c :
  c ∈ escaped s → c ∉ [NEWLINE; CR; TAB; BACKSPACE; FORMFEED].
Proof.
  unfold escaped. induction s as [|ch s IH]; cbn [flat_map].
  - intros Hc. exfalso. revert Hc. apply not_elem_of_nil.
  - intros [Hc|Hc]%elem_of_app; [|exact (IH Hc)].
    exact (escaping_table_no_raw_control ch c Hc).
Qed.

Lemma well_escaped_unit ch rest :
  well_escaped (escaping_table ch ++ rest) = well_escaped rest.
Proof. destruct ch; reflexivity. Qed.

Lemma escaped_well_escaped s : well_escaped (escaped s) = true.
Proof.
  unfold escaped. induction s as [|ch s IH]; cbn [flat_map]; [reflexivity|].
  rewrite well_escaped_unit. exact IH.
Qed.

Lemma literal_end_unit ch rest :
  literal_end (escaping_table ch ++ rest)
  = (λ n, length (escaping_table ch) + n)%nat <$> literal_end rest.
Proof.
  destruct ch; reflexivity.
Qed.

Lemma escaped_literal_end s rest :
  literal_end (escaped s ++ QUOTE :: rest) = Some (length (escaped s)).
Proof.
  unfold escaped. induction s as [|ch s IH]; cbn [flat_map app length].
  - reflexivity.
  - rewrite <- app_assoc, literal_end_unit, IH, length_app. reflexivity.
Qed.

End escape_shape_facts.

Section decoding_facts.

Lemma json_lex_string_unit ch tail :
  is_json_safe ch = true →
  json_lex_string None (escaping_table ch ++ tail)
  = '(v, rest) ← json_lex_string None tail; Some (ch :: v, rest).
Proof. destruct ch; intros Hsafe; try discriminate Hsafe; reflexivity. Qed.

Lemma json_lex_string_escaped s tail :
  forallb is_json_safe s = true →
  json_lex_string None (escaped s ++ QUOTE :: tail) = Some (s, tail).
Proof.
  unfold escaped. induction s as [|ch s IH]; cbn [flat_map forallb app].
  - reflexivity.
  - intros [Hch Hs]%andb_prop.
    rewrite <- app_assoc, (json_lex_string_unit ch _ Hch), (IH Hs).
    reflexivity.
Qed.

(** Away from the unescaped control characters, decoding undoes escaping. *)
Lemma json_decode_escaped s :
  forallb is_json_safe s = true → json_decode_string (escaped s) = Some s.
Proof.
  intros Hs. unfold json_decode_string.
  rewrite (json_lex_string_escaped s [] Hs). reflexivity.
Qed.

End decoding_facts.

(** * The claims about escape_json_string *)

(** C2. The switch of [escape_json_string] writes, for each of the seven
    special bytes, the two characters of the table of section 4.2, and for
    any other byte that byte alone; the string returned is, in order, the
    units of the bytes of the input. *)
Theorem escape_json_string_follows_table :
  (∀ st, escape_switch BACKSLASH st = store_all [BACKSLASH; BACKSLASH] st)
  ∧ (∀ st, escape_switch QUOTE st = store_all [BACKSLASH; QUOTE] st)
  ∧ (∀ st, escape_switch NEWLINE st = store_all [BACKSLASH; x6e] st)
  ∧ (∀ st, escape_switch CR st = store_all [BACKSLASH; x72] st)
  ∧ (∀ st, escape_switch TAB st = store_all [BACKSLASH; x74] st)
  ∧ (∀ st, escape_switch BACKSPACE st = store_all [BACKSLASH; x62] st)
  ∧ (∀ st, escape_switch FORMFEED st = store_all [BACKSLASH; x66] st)
  ∧ (∀ ch st, is_special ch = false → escape_switch ch st = store_inc ch st)
  ∧ (∀ str h,
       2 * (Z.of_nat (strlen str) + 1) ≤ MaxAllocSize →
       oom_after h ≠ Some O →
       ∃ pstr, escape_json_string str h = (Ret pstr, served h)
             ∧ read_cstring pstr = Some (flat_map escaping_table (c_str str))).
Proof.
  repeat split; try (intros st; apply escape_switch_table).
  - intros ch st Hch. rewrite escape_switch_table, escaping_table_plain by exact Hch.
    cbn. destruct (store_inc ch st); reflexivity.
  - intros str h Hfit Hmem. exact (escape_json_string_ok str h Hfit Hmem).
Qed.

Lemma escape_json_string_follows_table_witness :
  ∃ pstr,
    escape_json_string [x61; QUOTE; x62; NEWLINE; xc3; xa9] (Host None [])
      = (Ret pstr, served (Host None []))
    ∧ read_cstring pstr
      = Some (flat_map escaping_table (c_str [x61; QUOTE; x62; NEWLINE; xc3; xa9])).
Proof.
  apply escape_json_string_follows_table.
  - vm_compute. discriminate.
  - discriminate.
Defined.

(** C5. [escape_json_string] never truncates silently.  For a string that
    is an object of the platform, either [palloc] raises an error, or the
    call returns after its loop has run up to [i = str_len], so that the
    [break] of line 154 was not taken, with every byte of the input
    represented in the string returned; [j], the number of cells written
    with the terminator, stays within the [2 * (str_len + 1)] cells of
    [pstr].  The call does return when the buffer can be allocated. *)
Theorem escape_json_string_no_truncation str h :
  Z.of_nat (strlen str) < PTRDIFF_MAX →
  match escape_json_string_vars str h with
  | (Ret (i, (j, pstr)), _) =>
      i = Z.of_nat (strlen str)
      ∧ read_cstring pstr = Some (escaped (c_str str))
      ∧ (strlen str ≤ length (escaped (c_str str)))%nat
      ∧ j = Z.of_nat (length (escaped (c_str str))) + 1
      ∧ j ≤ 2 * Z.of_nat (strlen str) + 1
      ∧ Z.of_nat (length pstr) = 2 * (Z.of_nat (strlen str) + 1)
  | (Raise f, h') =>
      h' = h
      ∧ (f = ElogError "invalid memory alloc request size"
         ∨ f = ElogError "out of memory")
      ∧ (MaxAllocSize < 2 * (Z.of_nat (strlen str) + 1)
         ∨ oom_after h = Some O)
  end.
Proof.
  intros Hobj.
  destruct (Z.le_gt_cases (2 * (Z.of_nat (strlen str) + 1)) MaxAllocSize)
    as [Hfit|Hbig].
  - destruct (decide (oom_after h = Some O)) as [Hoom|Hmem].
    + rewrite escape_json_string_vars_oom by assumption. auto.
    + rewrite escape_json_string_vars_ok by assumption.
      pose proof (escaped_length (c_str str)) as Hlen.
      rewrite c_str_length in Hlen.
      pose proof (read_written_terminated (2 * (strlen str + 1))
                    (escaped (c_str str))
                    (escaped_no_NUL _ (c_str_no_NUL str))) as Hread.
      unfold written in *. cbn [snd] in Hread.
      repeat split.
      * exact Hread.
      * lia.
      * rewrite length_app. cbn [length]. lia.
      * rewrite length_app. cbn [length]. lia.
      * rewrite length_app, length_fmap, length_replicate, length_app.
        cbn [length]. lia.
  - rewrite escape_json_string_vars_too_big by (assumption || lia). auto.
Qed.

Lemma escape_json_string_no_truncation_witness :
  match escape_json_string_vars [BACKSLASH; QUOTE; NEWLINE] (Host None []) with
  | (Ret (i, (j, pstr)), _) =>
      i = 3
      ∧ read_cstring pstr
        = Some [BACKSLASH; BACKSLASH; BACKSLASH; QUOTE; BACKSLASH; x6e]
      ∧ (3 ≤ 6)%nat ∧ j = 7 ∧ j ≤ 7 ∧ Z.of_nat (length pstr) = 8
  | (Raise _, _) => False
  end.
Proof.
  pose proof (escape_json_string_no_truncation
                [BACKSLASH; QUOTE; NEWLINE] (Host None [])) as H.
  vm_compute in H. vm_compute. apply H. reflexivity.
Defined.

(** C9. On a string that holds none of the seven special bytes,
    [escape_json_string] is the identity. *)
Theorem escape_json_string_identity str h :
  forallb (λ ch, negb (is_special ch)) (c_str str) = true →
  2 * (Z.of_nat (strlen str) + 1) ≤ MaxAllocSize →
  oom_after h ≠ Some O →
  ∃ pstr, escape_json_string str h = (Ret pstr, served h)
        ∧ read_cstring pstr = Some (c_str str).
Proof.
  intros Hplain Hfit Hmem.
  destruct (escape_json_string_ok str h Hfit Hmem) as (pstr & Hrun & Hread).
  exists pstr. split; [exact Hrun|].
  rewrite Hread, escaped_plain; [reflexivity|].
  intros ch Hch. rewrite forallb_forall in Hplain.
  apply negb_true_iff, Hplain, list_elem_of_In, Hch.
Qed.

Lemma escape_json_string_identity_witness :
  ∃ pstr,
    escape_json_string [x4f; x27; x42; x20; xf0; x9f; x98; x80; x01] (Host None [])
      = (Ret pstr, served (Host None []))
    ∧ read_cstring pstr
      = Some (c_str [x4f; x27; x42; x20; xf0; x9f; x98; x80; x01]).
Proof.
  apply escape_json_string_identity.
  - reflexivity.
  - vm_compute. discriminate.
  - discriminate.
Defined.

(** C10. The string [escape_json_string] returns holds no raw newline,
    carriage return, tab, backspace or form feed; it is a sequence of units,
    each a backslash followed by an escape letter or one byte that is not
    special, so that a quote is always the second byte of a two-byte escape
    and a backslash its first or second byte; and put between double
    quotes, the literal ends at the closing quote and not before. *)
Theorem escape_json_string_output_shape str h :
  2 * (Z.of_nat (strlen str) + 1) ≤ MaxAllocSize →
  oom_after h ≠ Some O →
  ∃ pstr out,
    escape_json_string str h = (Ret pstr, served h)
    ∧ read_cstring pstr = Some out
    ∧ (∀ c, c ∈ out → c ∉ [NEWLINE; CR; TAB; BACKSPACE; FORMFEED])
    ∧ well_escaped out = true
    ∧ (∀ rest, literal_end (out ++ QUOTE :: rest) = Some (length out)).
Proof.
  intros Hfit Hmem.
  destruct (escape_json_string_ok str h Hfit Hmem) as (pstr & Hrun & Hread).
  exists pstr, (escaped (c_str str)). repeat split; try assumption.
  - apply escaped_no_raw_control.
  - apply escaped_well_escaped.
  - apply escaped_literal_end.
Qed.

Lemma escape_json_string_output_shape_witness :
  ∃ pstr out,
    escape_json_string [QUOTE; x7d; BACKSLASH; TAB; x41] (Host (Some 1%nat) [])
      = (Ret pstr, served (Host (Some 1%nat) []))
    ∧ read_cstring pstr = Some out
    ∧ (∀ c, c ∈ out → c ∉ [NEWLINE; CR; TAB; BACKSPACE; FORMFEED])
    ∧ well_escaped out = true
    ∧ (∀ rest, literal_end (out ++ QUOTE :: rest) = Some (length out)).
Proof.
  apply escape_json_string_output_shape.
  - vm_compute. discriminate.
  - discriminate.
Defined.

(** C1, at a failing input.  The one-byte text 0x01 is returned unescaped,
    and a JSON string decoder rejects a raw control character: the text is
    not recovered. *)
Theorem escape_json_string_control_not_decodable :
  escape_json_string [x01] (Host None [])
    = (Ret [Some x01; Some NUL; None; None], Host None [])
  ∧ json_decode_string [x01] = None
  ∧ json_decode_string [x01] ≠ Some [x01].
Proof. repeat split. discriminate. Qed.

(** * The claims about the marshalers and the load hook *)

Section marshaler_facts.

Lemma bind_Ret {A B} (m : M A) (k : A → M B) h a h' :
  m h = (Ret a, h') → bind m k h = k a h'.
Proof. unfold bind. intros ->. reflexivity. Qed.

Lemma bind_Raise {A B} (m : M A) (k : A → M B) h f h' :
  m h = (Raise f, h') → bind m k h = (Raise f, h').
Proof. unfold bind. intros ->. reflexivity. Qed.

Lemma may_alloc_plenty h : oom_after h = None → may_alloc h = (Ret tt, h).
Proof. unfold may_alloc. intros ->. reflexivity. Qed.

Lemma store_at_filled {A} (l : list A) r d :
  store_at ((Some <$> l) ++ replicate (S r) None) (Z.of_nat (length l)) d
  = Some ((Some <$> (l ++ [d])) ++ replicate r None).
Proof.
  unfold store_at. rewrite length_app, length_fmap, length_replicate.
  assert (Hin : (0 <=? Z.of_nat (length l))
              && (Z.of_nat (length l) <? Z.of_nat (length l + S r)) = true).
  { apply andb_true_intro; split; [apply Z.leb_le | apply Z.ltb_lt]; lia. }
  rewrite Hin, Nat2Z.id. f_equal.
  rewrite insert_app_r_alt by (rewrite length_fmap; lia).
  rewrite length_fmap, Nat.sub_diag. cbn.
  rewrite fmap_app. cbn. rewrite <- app_assoc. reflexivity.
Qed.

(** With memory to spare, the loop of lines 97-100 fills the cells in the
    order of the expansions. *)
Lemma normalize_for_runs expansions n h :
  oom_after h = None →
  (n ≤ length expansions)%nat →
  Z.of_nat n < SIZE_MAX →
  ∀ d i, (i + d = n)%nat →
    normalize_for d expansions (Z.of_nat n) (Z.of_nat i)
      ((Some <$> (c_str <$> take i expansions)) ++ replicate (n - i) None) h
    = (Ret (Some <$> (c_str <$> take n expansions)), h).
Proof.
  intros Hmem Hn Hsize.
  induction d as [|d IH]; intros i Hi; cbn [normalize_for].
  - replace i with n by lia. rewrite Z.ltb_irrefl, Nat.sub_diag. cbn.
    rewrite app_nil_r. reflexivity.
  - destruct (Z.ltb_spec (Z.of_nat i) (Z.of_nat n)) as [_|]; [|lia].
    rewrite Nat2Z.id.
    destruct (lookup_lt_is_Some_2 expansions i) as [e He]; [lia|].
    unfold bind at 1. rewrite He. cbn [lift ret].
    unfold bind at 1. unfold cstring_to_text, bind at 1.
    rewrite may_alloc_plenty by exact Hmem. cbn [ret].
    replace (n - i)%nat with (S (n - S i)) by lia.
    assert (Hlen : length (c_str <$> take i expansions) = i)
      by (rewrite length_fmap, length_take; lia).
    unfold bind at 1.
    rewrite <- Hlen at 3. rewrite store_at_filled. cbn [lift ret].
    rewrite <- fmap_snoc, <- (take_S_r _ _ _ He).
    rewrite to_size_t_small by lia.
    replace (Z.of_nat i + 1) with (Z.of_nat (S i)) by lia.
    apply IH. lia.
Qed.

Lemma construct_array_filled {A} (l : list A) h :
  oom_after h = None →
  construct_array (Some <$> l) (Z.of_nat (length l)) h = (Ret l, h).
Proof.
  intros Hmem. unfold construct_array, bind.
  rewrite may_alloc_plenty by exact Hmem.
  rewrite length_fmap, Z.ltb_irrefl, Nat2Z.id.
  rewrite take_ge by (rewrite length_fmap; lia).
  rewrite (mapM_fmap_Some id Some l) by reflexivity. reflexivity.
Qed.

Lemma postal_normalize_runs lp address h expansions arr_nelems :
  lp_expand_address lp (address ++ [NUL]) = (expansions, arr_nelems) →
  0 ≤ arr_nelems ≤ Z.of_nat (length expansions) →
  8 * arr_nelems ≤ MaxAllocSize →
  oom_after h = None →
  postal_normalize lp address h
  = (Ret (c_str <$> take (Z.to_nat arr_nelems) expansions),
     Host None (ext_calls h ++ [Ev_expand_address; Ev_expansion_array_destroy])).
Proof.
  intros Hexp Hcount Hfit Hmem. destruct h as [o calls]. cbn in Hmem. subst o.
  unfold MaxAllocSize in Hfit.
  assert (HSM : SIZE_MAX = 18446744073709551615) by reflexivity.
  unfold postal_normalize, text_to_cstring, libpostal_expand_address.
  cbn [bind may_alloc oom_after ret log_call ext_calls]. rewrite Hexp.
  rewrite to_size_t_small by lia.
  unfold palloc. destruct (Z.leb_spec (8 * arr_nelems) MaxAllocSize) as [_|];
    [|unfold MaxAllocSize in *; lia].
  cbn [bind may_alloc oom_after ret get_typlenbyvalalign_TEXTOID].
  replace (8 * arr_nelems / 8) with arr_nelems
    by (rewrite (Z.mul_comm 8), Z.div_mul; lia).
  pose proof (normalize_for_runs expansions (Z.to_nat arr_nelems)
                (Host None (calls ++ [Ev_expand_address]))
                eq_refl ltac:(lia) ltac:(lia) (Z.to_nat arr_nelems) O eq_refl)
    as Hloop.
  rewrite Z2Nat.id, Nat.sub_0_r in Hloop by lia.
  change ((Some <$> (c_str <$> take 0 expansions)) ++ ?r) with r in Hloop.
  change (Z.of_nat 0) with 0 in Hloop.
  rewrite (bind_Ret _ _ _ _ _ Hloop).
  pose proof (construct_array_filled
                (c_str <$> take (Z.to_nat arr_nelems) expansions)
                (Host None (calls ++ [Ev_expand_address])) eq_refl) as Harr.
  rewrite length_fmap, length_take, Nat.min_l, Z2Nat.id in Harr by lia.
  rewrite (bind_Ret _ _ _ _ _ Harr).
  unfold libpostal_expansion_array_destroy, log_call, bind, ret.
  cbn [oom_after ext_calls]. rewrite <- app_assoc. reflexivity.
Qed.

Lemma parse_for_done fuel parsed i strbuf :
  num_components parsed ≤ i → parse_for fuel parsed i strbuf = ret strbuf.
Proof.
  intros Hi. destruct fuel; cbn [parse_for];
    destruct (Z.ltb_spec i (num_components parsed)); (lia || reflexivity).
Qed.

End marshaler_facts.

Section budget_facts.

Lemma budget_free_ret {A} (a : A) : budget_free (ret a).
Proof. intros h b h' [= <- <-]. reflexivity. Qed.

Lemma budget_free_raise {A} f : budget_free (@raise A f).
Proof. intros h b h' [=]. Qed.

Lemma budget_free_lift {A} (o : option A) : budget_free (lift o).
Proof. destruct o; [apply budget_free_ret | apply budget_free_raise]. Qed.

Lemma budget_free_may_alloc : budget_free may_alloc.
Proof. intros [[[|n]|] calls] b h' [= <- <-]; reflexivity. Qed.

Lemma budget_free_log_call e : budget_free (log_call e).
Proof. intros h b h' [= <- <-]. reflexivity. Qed.

Lemma budget_free_bind {A B} (m : M A) (k : A → M B) :
  budget_free m → (∀ a, budget_free (k a)) → budget_free (bind m k).
Proof.
  intros Hm Hk h b h'. unfold bind. specialize (Hm h).
  destruct (m h) as [[a|f] h1]; [|intros [=]].
  intros Hrun. rewrite (Hm a h1 eq_refl). exact (Hk a h1 b h' Hrun).
Qed.

#[local] Hint Resolve budget_free_ret budget_free_raise budget_free_lift
  budget_free_may_alloc budget_free_log_call : budget.
#[local] Hint Extern 2 (budget_free (bind _ _)) =>
  apply budget_free_bind; [|intros ?] : budget.
#[local] Hint Extern 2 (budget_free (if ?b then _ else _)) => destruct b : budget.
#[local] Hint Extern 2 (budget_free (let (_, _) := ?p in _)) =>
  destruct p : budget.

Lemma budget_free_palloc {A} elt_size size :
  budget_free (@palloc A elt_size size).
Proof. unfold palloc, elog_ERROR. auto with budget. Qed.

Lemma budget_free_normalize_for fuel expansions n : ∀ i arr_elems,
  budget_free (normalize_for fuel expansions n i arr_elems).
Proof.
  induction fuel as [|fuel IH]; intros i arr_elems; cbn [normalize_for];
    unfold cstring_to_text; auto 10 with budget.
Qed.

Lemma budget_free_postal_normalize lp address :
  budget_free (postal_normalize lp address).
Proof.
  pose proof (@budget_free_palloc text).
  pose proof budget_free_normalize_for.
  unfold postal_normalize, text_to_cstring, libpostal_expand_address,
    get_typlenbyvalalign_TEXTOID, construct_array,
    libpostal_expansion_array_destroy.
  auto 12 with budget.
Qed.

End budget_facts.

(** C6. The array [postal_normalize] returns holds, cell for cell and in
    the engine's order, the strings of the first [arr_nelems] expansions:
    nothing is reordered or dropped, and its length is the count the engine
    reported.  With memory to spare the call does return. *)
Theorem postal_normalize_preserves_order lp address expansions arr_nelems :
  lp_expand_address lp (address ++ [NUL]) = (expansions, arr_nelems) →
  0 ≤ arr_nelems ≤ Z.of_nat (length expansions) →
  8 * arr_nelems ≤ MaxAllocSize →
  (∀ h, oom_after h = None →
        ∃ arr h', postal_normalize lp address h = (Ret arr, h'))
  ∧ (∀ h arr h',
       postal_normalize lp address h = (Ret arr, h') →
       Z.of_nat (length arr) = arr_nelems
       ∧ (∀ i, (i < length arr)%nat → arr !! i = c_str <$> expansions !! i)
       ∧ arr = c_str <$> take (Z.to_nat arr_nelems) expansions).
Proof.
  intros Hexp Hcount Hfit. split.
  - intros h Hmem. eexists _, _.
    exact (postal_normalize_runs lp address h _ _ Hexp Hcount Hfit Hmem).
  - intros h arr h' Hrun.
    apply budget_free_postal_normalize in Hrun.
    rewrite (postal_normalize_runs lp address (unbounded h) _ _
               Hexp Hcount Hfit eq_refl) in Hrun.
    injection Hrun as <- _. split; [|split].
    + rewrite length_fmap, length_take. lia.
    + intros i Hi. rewrite length_fmap, length_take in Hi.
      rewrite list_lookup_fmap, lookup_take_lt by lia. reflexivity.
    + reflexivity.
Qed.

Lemma postal_normalize_preserves_order_witness :
  (∀ h, oom_after h = None →
        ∃ arr h',
          postal_normalize
            (engine_double true true true
               [[x62; x00; x7a]; [x61]; [x62]; [x61]] 4 no_components)
            [x41] h
          = (Ret arr, h'))
  ∧ (∀ h arr h',
       postal_normalize
         (engine_double true true true
            [[x62; x00; x7a]; [x61]; [x62]; [x61]] 4 no_components)
         [x41] h
       = (Ret arr, h') →
       Z.of_nat (length arr) = 4
       ∧ (∀ i, (i < length arr)%nat →
            arr !! i = c_str <$> [[x62; x00; x7a]; [x61]; [x62]; [x61]] !! i)
       ∧ arr = c_str <$> take (Z.to_nat 4)
                           [[x62; x00; x7a]; [x61]; [x62]; [x61]]).
Proof.
  apply postal_normalize_preserves_order.
  - reflexivity.
  - cbn. lia.
  - vm_compute. discriminate.
Defined.

(** C7. Zero expansions give the empty array and zero components give the
    document [{}]; neither is an error. *)
Theorem empty_results_are_not_errors lp address h :
  oom_after h = None →
  (∀ expansions,
     lp_expand_address lp (address ++ [NUL]) = (expansions, 0) →
     postal_normalize lp address h
     = (Ret [], Host None (ext_calls h ++
                           [Ev_expand_address; Ev_expansion_array_destroy])))
  ∧ (num_components (lp_parse_address lp (address ++ [NUL])) = 0 →
     postal_parse_document lp address h
     = (Ret [x7b; x7d],
        Host None (ext_calls h ++
                   [Ev_parse_address; Ev_address_parser_response_destroy]))
     ∧ postal_parse lp address h
       = (Ret (JObject []),
          Host None (ext_calls h ++
                     [Ev_parse_address; Ev_address_parser_response_destroy]))).
Proof.
  intros Hmem. destruct h as [o calls]. cbn in Hmem. subst o. split.
  - intros expansions Hexp.
    rewrite (postal_normalize_runs lp address _ expansions 0 Hexp);
      [reflexivity | lia | unfold MaxAllocSize; lia | reflexivity].
  - intros Hzero.
    assert (Hdoc : postal_parse_document lp address (Host None calls)
                   = (Ret [x7b; x7d],
                      Host None (calls ++ [Ev_parse_address;
                                           Ev_address_parser_response_destroy]))).
    { unfold postal_parse_document, text_to_cstring, libpostal_parse_address,
        initStringInfo, appendStringInfoChar,
        libpostal_address_parser_response_destroy.
      cbn [bind may_alloc oom_after ret log_call ext_calls].
      rewrite parse_for_done by lia.
      cbn [bind may_alloc oom_after ret log_call ext_calls app].
      rewrite <- app_assoc. reflexivity. }
    split; [exact Hdoc|].
    unfold postal_parse. rewrite (bind_Ret _ _ _ _ _ Hdoc). reflexivity.
Qed.

Lemma empty_results_are_not_errors_witness :
  postal_normalize (engine_double true true true [] 0 no_components) []
    (Host None [])
  = (Ret [], Host None [Ev_expand_address; Ev_expansion_array_destroy])
  ∧ postal_parse (engine_double true true true [] 0 no_components) []
      (Host None [])
    = (Ret (JObject []),
       Host None [Ev_parse_address; Ev_address_parser_response_destroy]).
Proof.
  destruct (empty_results_are_not_errors
              (engine_double true true true [] 0 no_components) []
              (Host None []) eq_refl) as [Hnormalize Hparse].
  split.
  - exact (Hnormalize [] eq_refl).
  - exact (proj2 (Hparse eq_refl)).
Defined.

(** C8. When one of the three set-up calls fails, [_PG_init] raises its
    error at once: the calls made are those up to the failing one and no
    other, and the host is left as it was, the log of calls apart. *)
Theorem PG_init_fails_fast lp h :
  lp_setup lp && lp_setup_parser lp && lp_setup_language_classifier lp = false →
  _PG_init lp h
  = (Raise (ElogError "Failed to initialize libpostal."),
     Host (oom_after h)
       (ext_calls h ++
        if negb (lp_setup lp) then [Ev_setup]
        else if negb (lp_setup_parser lp) then [Ev_setup; Ev_setup_parser]
        else [Ev_setup; Ev_setup_parser; Ev_setup_language_classifier])).
Proof.
  destruct lp as [s p c expand parse]. destruct h as [o calls].
  cbn [lp_setup lp_setup_parser lp_setup_language_classifier].
  destruct s, p, c; intros Hfail; try discriminate Hfail;
    cbv [_PG_init or_else not_ libpostal_setup libpostal_setup_parser
         libpostal_setup_language_classifier bind ret log_call elog_ERROR raise
         lp_setup lp_setup_parser lp_setup_language_classifier
         oom_after ext_calls negb];
    rewrite <- ?app_assoc; reflexivity.
Qed.

Lemma PG_init_fails_fast_witness :
  _PG_init (engine_double true false true [] 0 no_components) (Host None [])
  = (Raise (ElogError "Failed to initialize libpostal."),
     Host None [Ev_setup; Ev_setup_parser]).
Proof.
  exact (PG_init_fails_fast
           (engine_double true false true [] 0 no_components) (Host None [])
           eq_refl).
Defined.

Section quiet_facts.

Lemma quiet_ret {A} (a : A) : quiet (ret a).
Proof. intros h. reflexivity. Qed.

Lemma quiet_raise {A} f : quiet (@raise A f).
Proof. intros h. reflexivity. Qed.

Lemma quiet_lift {A} (o : option A) : quiet (lift o).
Proof. destruct o; intros h; reflexivity. Qed.

Lemma quiet_may_alloc : quiet may_alloc.
Proof. intros [[[|n]|] calls]; reflexivity. Qed.

Lemma quiet_bind {A B} (m : M A) (k : A → M B) :
  quiet m → (∀ a, quiet (k a)) → quiet (bind m k).
Proof.
  intros Hm Hk h. unfold bind. specialize (Hm h).
  destruct (m h) as [[a|f] h1]; cbn [snd] in *.
  - rewrite Hk. exact Hm.
  - exact Hm.
Qed.

#[local] Hint Resolve quiet_ret quiet_raise quiet_lift quiet_may_alloc : quiet.
#[local] Hint Extern 2 (quiet (bind _ _)) =>
  apply quiet_bind; [|intros ?] : quiet.
#[local] Hint Extern 2 (quiet (if ?b then _ else _)) => destruct b : quiet.
#[local] Hint Extern 2 (quiet (match ?o with Some _ => _ | None => _ end)) =>
  destruct o : quiet.
#[local] Hint Extern 2 (quiet (let (_, _) := ?p in _)) => destruct p : quiet.

Lemma quiet_palloc {A} elt_size size : quiet (@palloc A elt_size size).
Proof. unfold palloc, elog_ERROR. auto with quiet. Qed.

Lemma quiet_text_to_cstring t : quiet (text_to_cstring t).
Proof. unfold text_to_cstring. auto with quiet. Qed.

Lemma quiet_cstring_to_text s : quiet (cstring_to_text s).
Proof. unfold cstring_to_text. auto with quiet. Qed.

Lemma quiet_construct_array {A} (elems : list (option A)) n :
  quiet (construct_array elems n).
Proof. unfold construct_array. auto with quiet. Qed.

Lemma quiet_initStringInfo : quiet initStringInfo.
Proof. unfold initStringInfo. auto with quiet. Qed.

Lemma quiet_appendStringInfoChar strbuf ch :
  quiet (appendStringInfoChar strbuf ch).
Proof. unfold appendStringInfoChar. auto with quiet. Qed.

Lemma quiet_appendStringInfo_member strbuf label component :
  quiet (appendStringInfo_member strbuf label component).
Proof. unfold appendStringInfo_member. auto with quiet. Qed.

Lemma quiet_jsonb_in data : quiet (jsonb_in data).
Proof. unfold jsonb_in, elog_ERROR. auto with quiet. Qed.

Lemma quiet_escape_json_string str : quiet (escape_json_string str).
Proof.
  unfold escape_json_string, escape_json_string_vars.
  pose proof (@quiet_palloc byte). auto 10 with quiet.
Qed.

#[local] Hint Resolve quiet_palloc quiet_text_to_cstring quiet_cstring_to_text
  quiet_construct_array quiet_initStringInfo quiet_appendStringInfoChar
  quiet_appendStringInfo_member quiet_jsonb_in quiet_escape_json_string : quiet.

Lemma quiet_normalize_for fuel expansions n : ∀ i arr_elems,
  quiet (normalize_for fuel expansions n i arr_elems).
Proof.
  induction fuel as [|fuel IH]; intros i arr_elems; cbn [normalize_for];
    auto 10 with quiet.
Qed.

Lemma quiet_parse_for fuel parsed : ∀ i strbuf,
  quiet (parse_for fuel parsed i strbuf).
Proof.
  induction fuel as [|fuel IH]; intros i strbuf; cbn [parse_for];
    unfold pfree; auto 12 with quiet.
Qed.

(** A quiet step either raises, and ends the call, or hands over to the
    rest of the call; the log is the same either way. *)
Lemma quiet_step {A B} (m : M A) (k : A → M B) h :
  quiet m →
  (∃ f h1, ext_calls h1 = ext_calls h ∧ bind m k h = (Raise f, h1))
  ∨ (∃ a h1, ext_calls h1 = ext_calls h ∧ bind m k h = k a h1).
Proof.
  intros Hm. specialize (Hm h). unfold bind.
  destruct (m h) as [[a|f] h1]; cbn [snd] in Hm; [right | left]; eauto.
Qed.

Lemma log_call_step {B} e (k : unit → M B) h :
  bind (log_call e) k h = k tt (Host (oom_after h) (ext_calls h ++ [e])).
Proof. reflexivity. Qed.

End quiet_facts.

Section release_facts.

Lemma bind_assoc {A B C} (m : M A) (f : A → M B) (g : B → M C) h :
  bind (bind m f) g h = bind m (λ a, bind (f a) g) h.
Proof. unfold bind. destruct (m h) as [[a|e] h1]; reflexivity. Qed.

Lemma ret_bind {A B} (a : A) (k : A → M B) h : bind (ret a) k h = k a h.
Proof. reflexivity. Qed.

(** One quiet step of a call whose log is being followed. *)
Ltac quiet_next tac :=
  match goal with
  | |- released_on_return _ _ _ (bind ?m ?k ?h) =>
      let Hq := fresh "Hq" in
      let Hl := fresh "Hlog" in
      assert (Hq : quiet m) by tac;
      destruct (quiet_step m k h Hq) as [(? & ? & Hl & ->) | (? & ? & Hl & ->)];
      clear Hq
  end.

(** The log at the end, from the equations collected on the way. *)
Ltac close_log :=
  cbn [released_on_return ret ext_calls] in *;
  repeat match goal with
         | H : ext_calls ?x = _ |- context [ext_calls ?x] => rewrite H
         end;
  rewrite <- ?app_assoc; auto.

Lemma postal_normalize_log lp address h :
  released_on_return Ev_expand_address Ev_expansion_array_destroy h
    (postal_normalize lp address h).
Proof.
  unfold postal_normalize.
  quiet_next ltac:(apply quiet_text_to_cstring); [close_log|].
  unfold libpostal_expand_address.
  rewrite bind_assoc, log_call_step, ret_bind.
  destruct (lp_expand_address lp _) as [expansions arr_nelems].
  quiet_next ltac:(apply quiet_palloc); [close_log|].
  quiet_next ltac:(apply quiet_ret); [close_log|].
  quiet_next ltac:(apply quiet_normalize_for); [close_log|].
  quiet_next ltac:(apply quiet_construct_array); [close_log|].
  unfold libpostal_expansion_array_destroy.
  rewrite log_call_step. close_log.
Qed.

Lemma postal_parse_document_log lp address h :
  released_on_return Ev_parse_address Ev_address_parser_response_destroy h
    (postal_parse_document lp address h).
Proof.
  unfold postal_parse_document.
  quiet_next ltac:(apply quiet_text_to_cstring); [close_log|].
  unfold libpostal_parse_address.
  rewrite bind_assoc, log_call_step, ret_bind.
  quiet_next ltac:(apply quiet_initStringInfo); [close_log|].
  quiet_next ltac:(apply quiet_appendStringInfoChar); [close_log|].
  quiet_next ltac:(apply quiet_parse_for); [close_log|].
  quiet_next ltac:(apply quiet_appendStringInfoChar); [close_log|].
  unfold libpostal_address_parser_response_destroy.
  rewrite log_call_step. close_log.
Qed.

End release_facts.

(** C4, as the code has it.  A call that returns has made the engine call
    and then its release, once each.  No path releases twice, or releases
    what it did not obtain.  A call that raises has either not reached the
    engine, or obtained an answer and not released it; only the error of
    the document parser, which [postal_parse] calls last, comes after the
    release. *)
Theorem releases_follow_normal_returns lp address h :
  match postal_normalize lp address h with
  | (Ret _, h') =>
      ext_calls h'
      = ext_calls h ++ [Ev_expand_address; Ev_expansion_array_destroy]
  | (Raise _, h') =>
      ext_calls h' = ext_calls h
      ∨ ext_calls h' = ext_calls h ++ [Ev_expand_address]
  end
  ∧ match postal_parse lp address h with
    | (Ret _, h') =>
        ext_calls h'
        = ext_calls h ++ [Ev_parse_address; Ev_address_parser_response_destroy]
    | (Raise f, h') =>
        ext_calls h' = ext_calls h
        ∨ ext_calls h' = ext_calls h ++ [Ev_parse_address]
        ∨ (ext_calls h'
           = ext_calls h ++ [Ev_parse_address; Ev_address_parser_response_destroy]
           ∧ ∃ doc h1, postal_parse_document lp address h = (Ret doc, h1)
                     ∧ jsonb_in doc h1 = (Raise f, h'))
    end.
Proof.
  split.
  - exact (postal_normalize_log lp address h).
  - pose proof (postal_parse_document_log lp address h) as Hdoc.
    unfold postal_parse, bind.
    destruct (postal_parse_document lp address h) as [[doc|f] h1];
      cbn [released_on_return] in Hdoc.
    + pose proof (quiet_jsonb_in doc h1) as Hq.
      destruct (jsonb_in doc h1) as [[v|f] h2] eqn:Hin; cbn [snd] in Hq.
      * congruence.
      * right. right. split; [congruence | eauto].
    + tauto.
Qed.

(** C4, as stated, fails: when the host runs out of memory while
    [postal_normalize] builds its result, the expansions are never
    released. *)
Lemma release_skipped_when_allocation_fails :
  ¬ (∀ lp address h,
       ext_calls h = [] →
       releases_match (ext_calls (postal_normalize lp address h).2) = true
       ∧ releases_match (ext_calls (postal_parse lp address h).2) = true).
Proof.
  intros Hclaim.
  destruct (Hclaim (engine_double true true true [[x61]] 1 no_components)
              [x41] (Host (Some 1%nat) []) eq_refl) as [Hnormalize _].
  vm_compute in Hnormalize. discriminate Hnormalize.
Qed.

(** C3, at a failing input.  For a component that holds the control
    character 0x01, the text built has the raw byte inside the string
    literal of the member [road]; it is not JSON, and [jsonb_in] raises. *)
Theorem postal_parse_rejects_control_component :
  postal_parse_document
    (engine_double true true true [] 0 (one_road [x01])) [x41] (Host None [])
  = (Ret [x7b; QUOTE; x72; x6f; x61; x64; QUOTE; x3a; QUOTE; x01; QUOTE; x7d],
     Host None [Ev_parse_address; Ev_address_parser_response_destroy])
  ∧ json_parse
      [x7b; QUOTE; x72; x6f; x61; x64; QUOTE; x3a; QUOTE; x01; QUOTE; x7d]
    = None
  ∧ postal_parse
      (engine_double true true true [] 0 (one_road [x01])) [x41] (Host None [])
    = (Raise (ElogError "invalid input syntax for type json"),
       Host None [Ev_parse_address; Ev_address_parser_response_destroy]).
Proof. repeat split. Qed.

(** * The document of postal_parse on well-behaved answers *)

Section document_facts.

Lemma skip_ws_here c rest :
  is_json_ws c = false → skip_ws (c :: rest) = c :: rest.
Proof. intros Hc. cbn [skip_ws]. rewrite Hc. reflexivity. Qed.

Lemma json_lex_string_plain s tail :
  forallb is_plain s = true →
  json_lex_string None (s ++ QUOTE :: tail) = Some (s, tail).
Proof.
  induction s as [|c s IH]; cbn [forallb app].
  - intros _. reflexivity.
  - intros [Hc Hs]%andb_prop. unfold is_plain in Hc.
    apply andb_prop in Hc as [[Hctl Hq]%andb_prop Hb].
    apply negb_true_iff in Hctl, Hq, Hb.
    apply bool_decide_eq_false in Hq, Hb.
    cbn [json_lex_string].
    destruct (decide (c = QUOTE)) as [|_]; [contradiction|].
    destruct (decide (c = BACKSLASH)) as [|_]; [contradiction|].
    rewrite Hctl, (IH Hs). reflexivity.
Qed.

Lemma member_text_length m : (5 ≤ length (member_text m))%nat.
Proof.
  unfold member_text. cbn [length]. rewrite length_app. cbn [length].
  rewrite length_app. cbn [length]. lia.
Qed.

Lemma members_text_length first ms :
  (length ms ≤ length (members_text first ms))%nat.
Proof.
  revert first. induction ms as [|m ms IH]; intros first; cbn [members_text length];
    [lia|].
  rewrite !length_app. pose proof (member_text_length m).
  specialize (IH false). lia.
Qed.

(** Settle the comparisons of two known bytes. *)
Ltac decide_bytes :=
  repeat match goal with
         | |- context [decide (?a = ?b)] =>
             destruct (decide (a = b)) as [?Heq|?Hne];
             [try discriminate | try congruence]
         end.

Lemma json_parse_value_string fuel s v tail :
  json_lex_string None s = Some (v, tail) →
  json_parse_value (S fuel) (QUOTE :: s) = Some (JString v, tail).
Proof.
  intros Hlex. cbn [json_parse_value].
  rewrite skip_ws_here by reflexivity.
  decide_bytes. rewrite Hlex. reflexivity.
Qed.

Lemma json_parse_members_text ms : ∀ m fuel,
  forallb safe_member (m :: ms) = true →
  (length ms + 2 ≤ fuel)%nat →
  json_parse_members fuel (member_text m ++ members_text false ms ++ [x7d])
  = Some (members_json (m :: ms), []).
Proof.
  induction ms as [|m' ms IH]; intros m fuel Hsafe Hfuel;
    (destruct fuel as [|fuel]; [cbn [length] in Hfuel; lia|]);
    cbn [forallb] in Hsafe; apply andb_prop in Hsafe as [Hm Hms];
    apply andb_prop in Hm as [Hlabel Hvalue];
    unfold member_text; cbn [json_parse_members app];
    rewrite skip_ws_here by reflexivity; decide_bytes;
    rewrite <- ?app_assoc; cbn [app]; rewrite <- ?app_assoc; cbn [app];
    rewrite (json_lex_string_plain _ _ Hlabel); cbn [mbind option_bind];
    rewrite skip_ws_here by reflexivity; decide_bytes;
    (destruct fuel as [|fuel]; [cbn [length] in Hfuel; lia|]);
    rewrite (json_parse_value_string _ _ _ _
               (json_lex_string_escaped _ _ Hvalue));
    cbn [mbind option_bind members_text app].
  - rewrite skip_ws_here by reflexivity. decide_bytes. reflexivity.
  - rewrite skip_ws_here by reflexivity. decide_bytes.
    rewrite <- app_assoc.
    rewrite IH by (assumption || (cbn [length] in Hfuel; lia)).
    reflexivity.
Qed.

(** The document of well-behaved members is read back as these members. *)
Lemma json_parse_document ms :
  forallb safe_member ms = true →
  json_parse (x7b :: members_text true ms ++ [x7d])
  = Some (JObject (members_json ms)).
Proof.
  intros Hsafe. unfold json_parse. destruct ms as [|m ms].
  - reflexivity.
  - cbn [json_parse_value members_text app].
    rewrite skip_ws_here by reflexivity. decide_bytes.
    unfold member_text at 1. cbn [app].
    rewrite skip_ws_here by reflexivity. decide_bytes.
    fold (member_text m). rewrite <- !app_assoc.
    rewrite json_parse_members_text; [reflexivity | exact Hsafe |].
    cbn [length]. rewrite !length_app.
    pose proof (members_text_length false ms).
    pose proof (member_text_length m). cbn [length]. lia.
Qed.

Lemma appendStringInfo_member_runs strbuf label str calls :
  appendStringInfo_member strbuf label
    (written (2 * (strlen str + 1)) (escaped (c_str str) ++ [NUL])).2
    (Host None calls)
  = (Ret (strbuf ++ member_text (label, str)), Host None calls).
Proof.
  unfold appendStringInfo_member, bind. cbn [may_alloc oom_after].
  rewrite read_written_terminated by apply escaped_no_NUL, c_str_no_NUL.
  reflexivity.
Qed.

(** With memory to spare and a response in order, the loop of lines
    181-191 appends the members that are left. *)
Lemma parse_for_runs parsed calls :
  response_ok parsed = true →
  ∀ d i strbuf, (i + d = length (components parsed))%nat →
    parse_for d parsed (Z.of_nat i) strbuf (Host None calls)
    = (Ret (strbuf ++ members_text (bool_decide (i = O))
                        (drop i (response_members parsed))),
       Host None calls).
Proof.
  unfold response_ok. intros Hok.
  apply andb_prop in Hok as [[[Hn Hmax]%andb_prop Hlabels]%andb_prop Hfit].
  apply Z.eqb_eq in Hn. apply Z.leb_le in Hmax.
  apply bool_decide_eq_true in Hlabels. rewrite forallb_forall in Hfit.
  induction d as [|d IH]; intros i strbuf Hi; cbn [parse_for]; rewrite Hn.
  - replace i with (length (components parsed)) by lia.
    rewrite Z.ltb_irrefl, drop_ge, app_nil_r; [reflexivity|].
    unfold response_members. rewrite length_zip. lia.
  - destruct (Z.ltb_spec (Z.of_nat i) (Z.of_nat (length (components parsed))))
      as [_|]; [|lia].
    destruct (lookup_lt_is_Some_2 (components parsed) i) as [c Hc]; [lia|].
    destruct (lookup_lt_is_Some_2 (labels parsed) i) as [l Hl]; [lia|].
    assert (Hm : response_members parsed !! i = Some (l, c)).
    { unfold response_members. rewrite lookup_zip_with, Hl, Hc.
      reflexivity. }
    rewrite (drop_S _ _ _ Hm). cbn [members_text].
    assert (Hsep : (if 0 <? Z.of_nat i
                    then appendStringInfoChar strbuf x2c else ret strbuf)
                     (Host None calls)
                   = (Ret (strbuf ++ if bool_decide (i = O) then []
                                     else [x2c]),
                      Host None calls)).
    { destruct i as [|i].
      - cbn. rewrite app_nil_r. reflexivity.
      - reflexivity. }
    rewrite (bind_Ret _ _ _ _ _ Hsep), Nat2Z.id, Hc. cbn [lift].
    rewrite ret_bind.
    assert (Hesc : escape_json_string c (Host None calls)
                   = (Ret (written (2 * (strlen c + 1))
                             (escaped (c_str c) ++ [NUL])).2,
                      Host None calls)).
    { unfold escape_json_string.
      rewrite (bind_Ret _ _ _ _ _
                 (escape_json_string_vars_ok c (Host None calls)
                    ltac:(apply Z.leb_le, Hfit, list_elem_of_In,
                            (list_elem_of_lookup_2 _ _ _ Hc))
                    ltac:(discriminate))).
      reflexivity. }
    rewrite (bind_Ret _ _ _ _ _ Hesc), Hl. cbn [lift]. rewrite ret_bind.
    rewrite (bind_Ret _ _ _ _ _ (appendStringInfo_member_runs _ _ _ _)).
    unfold pfree. rewrite ret_bind.
    assert (HSM : SIZE_MAX = 18446744073709551615) by reflexivity.
    rewrite to_size_t_small by lia.
    replace (Z.of_nat i + 1) with (Z.of_nat (S i)) by lia.
    rewrite IH by lia. rewrite <- !app_assoc. reflexivity.
Qed.

Lemma postal_parse_document_runs lp address calls :
  response_ok (lp_parse_address lp (address ++ [NUL])) = true →
  postal_parse_document lp address (Host None calls)
  = (Ret (x7b :: members_text true
                   (response_members (lp_parse_address lp (address ++ [NUL])))
          ++ [x7d]),
     Host None
       (calls ++ [Ev_parse_address; Ev_address_parser_response_destroy])).
Proof.
  intros Hok.
  unfold postal_parse_document, text_to_cstring, libpostal_parse_address,
    initStringInfo, appendStringInfoChar,
    libpostal_address_parser_response_destroy.
  cbn [bind may_alloc oom_after ret log_call ext_calls app].
  pose proof (parse_for_runs _ (calls ++ [Ev_parse_address]) Hok
                (length (components (lp_parse_address lp (address ++ [NUL]))))
                O [x7b] eq_refl) as Hloop.
  assert (Hn : Z.to_nat (num_components (lp_parse_address lp (address ++ [NUL])))
               = length (components (lp_parse_address lp (address ++ [NUL])))).
  { unfold response_ok in Hok.
    apply andb_prop in Hok as [[[Hn _]%andb_prop _]%andb_prop _].
    apply Z.eqb_eq in Hn. rewrite Hn. apply Nat2Z.id. }
  rewrite Hn. change (Z.of_nat 0) with 0 in Hloop.
  rewrite (bind_Ret _ _ _ _ _ Hloop).
  cbn [bind may_alloc ret log_call app drop oom_after ext_calls].
  rewrite <- app_assoc. reflexivity.
Qed.

End document_facts.

(** On the answers the escaper handles, [postal_parse] returns the object
    whose members are the labels and components of the engine, in order. *)
Theorem postal_parse_accepts_safe_components lp address h :
  oom_after h = None →
  response_ok (lp_parse_address lp (address ++ [NUL])) = true →
  forallb safe_member
    (response_members (lp_parse_address lp (address ++ [NUL]))) = true →
  postal_parse lp address h
  = (Ret (JObject (members_json
                     (response_members
                        (lp_parse_address lp (address ++ [NUL]))))),
     Host None
       (ext_calls h ++ [Ev_parse_address; Ev_address_parser_response_destroy])).
Proof.
  intros Hmem Hok Hsafe. destruct h as [o calls]. cbn in Hmem. subst o.
  unfold postal_parse.
  rewrite (bind_Ret _ _ _ _ _ (postal_parse_document_runs lp address calls Hok)).
  unfold jsonb_in, bind. cbn [may_alloc oom_after].
  rewrite (json_parse_document _ Hsafe). reflexivity.
Qed.

(** * Sample runs *)

Example scenario_round_trip :
  json_decode_string (escaped scenario_text) = Some scenario_text.
Proof. apply json_decode_escaped. reflexivity. Qed.

Example franklin_avenue_document :
  postal_parse (engine_double true true true [] 0 franklin_avenue)
    (list_byte_of_string "781 Franklin Ave") (Host None [])
  = (Ret (JObject
            [(list_byte_of_string "house_number",
              JString (list_byte_of_string "781"));
             (list_byte_of_string "road",
              JString (list_byte_of_string "franklin ave"))]),
     Host None [Ev_parse_address; Ev_address_parser_response_destroy]).
Proof.
  exact (postal_parse_accepts_safe_components
           (engine_double true true true [] 0 franklin_avenue)
           (list_byte_of_string "781 Franklin Ave") (Host None [])
           eq_refl eq_refl eq_refl).
Qed.

Example PG_init_then_PG_fini :
  bind (_PG_init (engine_double true true true [] 0 no_components))
       (λ _, _PG_fini) (Host None [])
  = (Ret tt,
     Host None [Ev_setup; Ev_setup_parser; Ev_setup_language_classifier;
                Ev_teardown; Ev_teardown_parser;
                Ev_teardown_language_classifier]).
Proof. reflexivity. Qed.

(** * Further properties of escape_json_string *)

Section escape_measure_facts.

Lemma escaping_table_size ch :
  length (escaping_table ch) = if is_special ch then 2%nat else 1%nat.
Proof. destruct ch; reflexivity. Qed.

Lemma escaped_size s :
  length (escaped s) = (length s + count_special s)%nat.
Proof.
  unfold escaped, count_special.
  induction s as [|c s IH]; cbn [flat_map List.filter length]; [reflexivity|].
  rewrite length_app, escaping_table_size, IH.
  destruct (is_special c); cbn [length]; lia.
Qed.

Lemma unescape_unit ch tail :
  unescape (escaping_table ch ++ tail) = ch :: unescape tail.
Proof. destruct ch; reflexivity. Qed.

Lemma unescape_escaped s : unescape (escaped s) = s.
Proof.
  unfold escaped. induction s as [|c s IH]; cbn [flat_map]; [reflexivity|].
  rewrite unescape_unit, IH. reflexivity.
Qed.

Lemma strlen_app_clean s t :
  NUL_free s = true → strlen (s ++ t) = (length s + strlen t)%nat.
Proof.
  unfold NUL_free. induction s as [|c s IH]; cbn [forallb app strlen length];
    [reflexivity|].
  intros [Hc Hs]%andb_prop. apply negb_true_iff, bool_decide_eq_false in Hc.
  destruct (decide (c = NUL)); [contradiction|]. rewrite (IH Hs). reflexivity.
Qed.

Lemma c_str_app_clean s t :
  NUL_free s = true → c_str (s ++ t) = s ++ c_str t.
Proof.
  intros Hs. unfold c_str. rewrite (strlen_app_clean s t Hs).
  rewrite take_app_add. reflexivity.
Qed.

Lemma NUL_free_c_str s : NUL_free s = true → c_str s = s.
Proof.
  intros Hs. rewrite <- (app_nil_r s) at 1.
  rewrite (c_str_app_clean s [] Hs). apply app_nil_r.
Qed.

Lemma json_lex_string_raw_control s tail :
  forallb is_json_safe s = false →
  json_lex_string None (escaped s ++ tail) = None.
Proof.
  unfold escaped. induction s as [|c s IH]; cbn [forallb flat_map].
  - discriminate.
  - destruct (is_json_safe c) eqn:Hc; cbn [andb].
    + intros Hs. rewrite <- app_assoc, (json_lex_string_unit c _ Hc), (IH Hs).
      reflexivity.
    + intros _. clear IH.
      destruct c; try discriminate Hc; reflexivity.
Qed.

End escape_measure_facts.

(** X3. The string [escape_json_string] returns is as long as its input
    plus one byte for each special byte of the input. *)
Theorem escape_json_string_length str h :
  2 * (Z.of_nat (strlen str) + 1) ≤ MaxAllocSize →
  oom_after h ≠ Some O →
  ∃ pstr out,
    escape_json_string str h = (Ret pstr, served h)
    ∧ read_cstring pstr = Some out
    ∧ length out = (strlen str + count_special (c_str str))%nat.
Proof.
  intros Hfit Hmem.
  destruct (escape_json_string_ok str h Hfit Hmem) as (pstr & Hrun & Hread).
  exists pstr, (escaped (c_str str)). repeat split; try assumption.
  rewrite escaped_size, c_str_length. reflexivity.
Qed.

Lemma escape_json_string_length_witness :
  ∃ pstr out,
    escape_json_string [x61; QUOTE; TAB; x62; BACKSLASH] (Host None [])
      = (Ret pstr, served (Host None []))
    ∧ read_cstring pstr = Some out
    ∧ length out
      = (strlen [x61; QUOTE; TAB; x62; BACKSLASH]
         + count_special (c_str [x61; QUOTE; TAB; x62; BACKSLASH]))%nat.
Proof.
  apply escape_json_string_length.
  - vm_compute. discriminate.
  - discriminate.
Defined.

(** X4. [escape_json_string] loses nothing: two calls that return the same
    string were given the same C string. *)
Theorem escape_json_string_injective str1 str2 h1 h2 :
  2 * (Z.of_nat (strlen str1) + 1) ≤ MaxAllocSize →
  2 * (Z.of_nat (strlen str2) + 1) ≤ MaxAllocSize →
  oom_after h1 ≠ Some O →
  oom_after h2 ≠ Some O →
  ∃ pstr1 pstr2 out1 out2,
    escape_json_string str1 h1 = (Ret pstr1, served h1)
    ∧ escape_json_string str2 h2 = (Ret pstr2, served h2)
    ∧ read_cstring pstr1 = Some out1
    ∧ read_cstring pstr2 = Some out2
    ∧ (out1 = out2 → c_str str1 = c_str str2).
Proof.
  intros Hfit1 Hfit2 Hmem1 Hmem2.
  destruct (escape_json_string_ok str1 h1 Hfit1 Hmem1) as (p1 & Hrun1 & Hread1).
  destruct (escape_json_string_ok str2 h2 Hfit2 Hmem2) as (p2 & Hrun2 & Hread2).
  exists p1, p2, (escaped (c_str str1)), (escaped (c_str str2)).
  repeat split; try assumption.
  intros Heq. rewrite <- (unescape_escaped (c_str str1)), Heq.
  apply unescape_escaped.
Qed.

Lemma escape_json_string_injective_witness :
  ∃ pstr1 pstr2 out1 out2,
    escape_json_string [BACKSLASH; x6e] (Host None [])
      = (Ret pstr1, served (Host None []))
    ∧ escape_json_string [NEWLINE] (Host (Some 2%nat) [])
      = (Ret pstr2, served (Host (Some 2%nat) []))
    ∧ read_cstring pstr1 = Some out1
    ∧ read_cstring pstr2 = Some out2
    ∧ (out1 = out2 → c_str [BACKSLASH; x6e] = c_str [NEWLINE]).
Proof.
  apply escape_json_string_injective.
  - vm_compute. discriminate.
  - vm_compute. discriminate.
  - discriminate.
  - discriminate.
Defined.

(** X5. Escaping goes byte by byte: the string returned for [s] followed
    by [t] is the string returned for [s] followed by the one returned for
    [t]. *)
Theorem escape_json_string_app s t h :
  NUL_free s = true →
  2 * (Z.of_nat (strlen (s ++ t)) + 1) ≤ MaxAllocSize →
  oom_after h ≠ Some O →
  ∃ pstr pstr_s pstr_t out_s out_t,
    escape_json_string (s ++ t) h = (Ret pstr, served h)
    ∧ escape_json_string s h = (Ret pstr_s, served h)
    ∧ escape_json_string t h = (Ret pstr_t, served h)
    ∧ read_cstring pstr_s = Some out_s
    ∧ read_cstring pstr_t = Some out_t
    ∧ read_cstring pstr = Some (out_s ++ out_t).
Proof.
  intros Hs Hfit Hmem.
  pose proof (strlen_app_clean s t Hs) as Hlen.
  pose proof (strlen_app_clean s [] Hs) as Hlen_s.
  rewrite app_nil_r in Hlen_s. cbn [strlen] in Hlen_s.
  destruct (escape_json_string_ok (s ++ t) h Hfit Hmem) as (p & Hrun & Hread).
  destruct (escape_json_string_ok s h ltac:(lia) Hmem) as (ps & Hrun_s & Hread_s).
  destruct (escape_json_string_ok t h ltac:(lia) Hmem) as (pt & Hrun_t & Hread_t).
  exists p, ps, pt, (escaped (c_str s)), (escaped (c_str t)).
  repeat split; try assumption.
  rewrite Hread, (c_str_app_clean s t Hs), (NUL_free_c_str s Hs), escaped_app.
  reflexivity.
Qed.

Lemma escape_json_string_app_witness :
  ∃ pstr pstr_s pstr_t out_s out_t,
    escape_json_string ([x61; QUOTE] ++ [BACKSLASH; x62; NUL; x63]) (Host None [])
      = (Ret pstr, served (Host None []))
    ∧ escape_json_string [x61; QUOTE] (Host None [])
      = (Ret pstr_s, served (Host None []))
    ∧ escape_json_string [BACKSLASH; x62; NUL; x63] (Host None [])
      = (Ret pstr_t, served (Host None []))
    ∧ read_cstring pstr_s = Some out_s
    ∧ read_cstring pstr_t = Some out_t
    ∧ read_cstring pstr = Some (out_s ++ out_t).
Proof.
  apply escape_json_string_app.
  - reflexivity.
  - vm_compute. discriminate.
  - discriminate.
Defined.

(** X6. The input is read as a C string: two arguments that agree up to
    their first NUL give the same result, whatever follows the NUL. *)
Theorem escape_json_string_stops_at_NUL str1 str2 h :
  c_str str1 = c_str str2 →
  2 * (Z.of_nat (strlen str1) + 1) ≤ MaxAllocSize →
  oom_after h ≠ Some O →
  escape_json_string str1 h = escape_json_string str2 h
  ∧ ∃ pstr, escape_json_string str2 h = (Ret pstr, served h)
          ∧ read_cstring pstr = Some (escaped (c_str str1)).
Proof.
  intros Hsame Hfit Hmem.
  assert (Hlen : strlen str2 = strlen str1)
    by (rewrite <- !c_str_length, Hsame; reflexivity).
  assert (Hfit2 : 2 * (Z.of_nat (strlen str2) + 1) ≤ MaxAllocSize)
    by (rewrite Hlen; exact Hfit).
  split.
  - unfold escape_json_string, bind.
    rewrite (escape_json_string_vars_ok str1 h Hfit Hmem).
    rewrite (escape_json_string_vars_ok str2 h Hfit2 Hmem).
    rewrite Hlen, Hsame. reflexivity.
  - rewrite Hsame. exact (escape_json_string_ok str2 h Hfit2 Hmem).
Qed.

Lemma escape_json_string_stops_at_NUL_witness :
  escape_json_string [x61; TAB; NUL; QUOTE; x62] (Host None [])
  = escape_json_string [x61; TAB] (Host None [])
  ∧ ∃ pstr,
      escape_json_string [x61; TAB] (Host None [])
      = (Ret pstr, served (Host None []))
      ∧ read_cstring pstr = Some (escaped (c_str [x61; TAB; NUL; QUOTE; x62])).
Proof.
  apply escape_json_string_stops_at_NUL.
  - reflexivity.
  - vm_compute. discriminate.
  - discriminate.
Defined.

(** X7. A JSON string decoder gives back the text from the string
    [escape_json_string] returns when the text holds no control character
    below 0x20 other than the five the switch escapes, and rejects the
    string when it holds one. *)
Theorem escape_json_string_decodes_iff_safe str h :
  2 * (Z.of_nat (strlen str) + 1) ≤ MaxAllocSize →
  oom_after h ≠ Some O →
  ∃ pstr out,
    escape_json_string str h = (Ret pstr, served h)
    ∧ read_cstring pstr = Some out
    ∧ json_decode_string out
      = if forallb is_json_safe (c_str str) then Some (c_str str) else None.
Proof.
  intros Hfit Hmem.
  destruct (escape_json_string_ok str h Hfit Hmem) as (pstr & Hrun & Hread).
  exists pstr, (escaped (c_str str)). repeat split; try assumption.
  destruct (forallb is_json_safe (c_str str)) eqn:Hsafe.
  - exact (json_decode_escaped _ Hsafe).
  - unfold json_decode_string.
    rewrite (json_lex_string_raw_control _ [QUOTE] Hsafe). reflexivity.
Qed.

Lemma escape_json_string_decodes_iff_safe_witness :
  ∃ pstr out,
    escape_json_string [x61; QUOTE; x1f; NEWLINE] (Host None [])
      = (Ret pstr, served (Host None []))
    ∧ read_cstring pstr = Some out
    ∧ json_decode_string out
      = if forallb is_json_safe (c_str [x61; QUOTE; x1f; NEWLINE])
        then Some (c_str [x61; QUOTE; x1f; NEWLINE]) else None.
Proof.
  apply escape_json_string_decodes_iff_safe.
  - vm_compute. discriminate.
  - discriminate.
Defined.

(** * Further properties of the marshalers and the hooks *)

Section rejection_facts.





End rejection_facts.

(** X1. [_PG_init] returns exactly when the three set-up calls succeed; it
    has then made each of them once, in the order core, parser, language
    classifier, and no other call.  Its only other end is the error. *)
Theorem PG_init_returns_iff_all_set_up lp h :
  match _PG_init lp h with
  | (Ret _, h') =>
      lp_setup lp && lp_setup_parser lp && lp_setup_language_classifier lp
      = true
      ∧ h' = Host (oom_after h)
               (ext_calls h
                ++ [Ev_setup; Ev_setup_parser; Ev_setup_language_classifier])
  | (Raise f, _) =>
      lp_setup lp && lp_setup_parser lp && lp_setup_language_classifier lp
      = false
      ∧ f = ElogError "Failed to initialize libpostal."
  end.
Proof.
  destruct lp as [s p c expand parse]. destruct h as [o calls].
  destruct s, p, c;
    cbv [_PG_init or_else not_ libpostal_setup libpostal_setup_parser
         libpostal_setup_language_classifier bind ret log_call elog_ERROR raise
         lp_setup lp_setup_parser lp_setup_language_classifier
         oom_after ext_calls negb andb];
    rewrite <- ?app_assoc; split; reflexivity.
Qed.

(** X2. [_PG_fini] has no failure path: from any state it returns after the
    three tear-down calls, in the order core, parser, language classifier.
    After a [_PG_init] that returned, every subsystem has been set up once
    and torn down once. *)
Theorem PG_fini_tears_down_everything lp h :
  (∀ h0, _PG_fini h0
         = (Ret tt,
            Host (oom_after h0)
              (ext_calls h0
               ++ [Ev_teardown; Ev_teardown_parser;
                   Ev_teardown_language_classifier])))
  ∧ (∀ h1, _PG_init lp h = (Ret tt, h1) →
           _PG_fini h1
           = (Ret tt,
              Host (oom_after h)
                (ext_calls h
                 ++ [Ev_setup; Ev_setup_parser; Ev_setup_language_classifier;
                     Ev_teardown; Ev_teardown_parser;
                     Ev_teardown_language_classifier]))).
Proof.
  assert (Hfini : ∀ h0, _PG_fini h0
                        = (Ret tt,
                           Host (oom_after h0)
                             (ext_calls h0
                              ++ [Ev_teardown; Ev_teardown_parser;
                                  Ev_teardown_language_classifier]))).
  { intros [o calls].
    cbv [_PG_fini libpostal_teardown libpostal_teardown_parser
         libpostal_teardown_language_classifier bind log_call
         oom_after ext_calls].
    rewrite <- !app_assoc. reflexivity. }
  split; [exact Hfini|].
  intros h1 Hinit. rewrite Hfini.
  assert (Hh1 : h1 = Host (oom_after h)
                       (ext_calls h ++ [Ev_setup; Ev_setup_parser;
                                        Ev_setup_language_classifier])).
  { destruct lp as [s p c expand parse]. destruct h as [o calls].
    revert Hinit.
    destruct s, p, c;
      cbv [_PG_init or_else not_ libpostal_setup libpostal_setup_parser
           libpostal_setup_language_classifier bind ret log_call elog_ERROR
           raise lp_setup lp_setup_parser lp_setup_language_classifier
           oom_after ext_calls negb];
      intros [= <-]; rewrite <- ?app_assoc; reflexivity. }
  rewrite Hh1. cbn [oom_after ext_calls]. rewrite <- app_assoc. reflexivity.
Qed.

Lemma PG_fini_tears_down_everything_witness :
  _PG_fini (Host (Some 0%nat) [Ev_setup; Ev_setup_parser;
                               Ev_setup_language_classifier])
  = (Ret tt,
     Host (Some 0%nat)
       [Ev_setup; Ev_setup_parser; Ev_setup_language_classifier;
        Ev_teardown; Ev_teardown_parser; Ev_teardown_language_classifier]).
Proof.
  exact (proj2 (PG_fini_tears_down_everything
                  (engine_double true true true [] 0 no_components)
                  (Host (Some 0%nat) []))
           _ eq_refl).
Defined.

(** X8. For a response whose count is the length of its two arrays,
    [postal_parse] hands to [jsonb_in] an opening brace, the members in the
    order of the engine, each after the first behind one comma and each made
    of the label as it is and the escaped component, and a closing brace;
    the response has been released by then. *)
Theorem postal_parse_document_text lp address h :
  oom_after h = None →
  response_ok (lp_parse_address lp (address ++ [NUL])) = true →
  postal_parse_document lp address h
  = (Ret (x7b :: members_text true
                   (response_members (lp_parse_address lp (address ++ [NUL])))
          ++ [x7d]),
     Host None
       (ext_calls h ++ [Ev_parse_address; Ev_address_parser_response_destroy])).
Proof.
  intros Hmem Hok. destruct h as [o calls]. cbn in Hmem. subst o.
  exact (postal_parse_document_runs lp address calls Hok).
Qed.

Lemma postal_parse_document_text_witness :
  postal_parse_document
    (engine_double true true true [] 0
       {| num_components := 2;
          components := [[x7d; QUOTE]; [x01; NUL; x62]];
          labels := [[x61]; [x61]] |})
    [x41] (Host None [])
  = (Ret [x7b; QUOTE; x61; QUOTE; x3a; QUOTE; x7d; BACKSLASH; QUOTE; QUOTE;
          x2c; QUOTE; x61; QUOTE; x3a; QUOTE; x01; QUOTE; x7d],
     Host None [Ev_parse_address; Ev_address_parser_response_destroy]).
Proof.
  exact (postal_parse_document_text
           (engine_double true true true [] 0
              {| num_components := 2;
                 components := [[x7d; QUOTE]; [x01; NUL; x62]];
                 labels := [[x61]; [x61]] |})
           [x41] (Host None []) eq_refl eq_refl).
Defined.



(** X10. The size of [arr_elems] is not checked before [palloc] (line 88):
    when the engine reports more expansions than an allocation of the host
    can hold, [postal_normalize] ends in the error of [palloc], after the
    engine call and without the release of line 106. *)
Theorem postal_normalize_oversized_count lp address h expansions arr_nelems :
  lp_expand_address lp (address ++ [NUL]) = (expansions, arr_nelems) →
  MaxAllocSize < 8 * arr_nelems →
  8 * arr_nelems ≤ SIZE_MAX →
  oom_after h ≠ Some O →
  postal_normalize lp address h
  = (Raise (ElogError "invalid memory alloc request size"),
     Host (Nat.pred <$> oom_after h) (ext_calls h ++ [Ev_expand_address])).
Proof.
  intros Hexp Hbig Hmax Hmem. unfold MaxAllocSize in Hbig.
  unfold postal_normalize, text_to_cstring.
  rewrite bind_assoc, (bind_Ret _ _ _ _ _ (may_alloc_served h Hmem)), ret_bind.
  unfold libpostal_expand_address.
  rewrite bind_assoc, log_call_step, ret_bind. cbn [served oom_after ext_calls].
  rewrite Hexp. rewrite to_size_t_small by lia.
  unfold palloc, bind.
  destruct (Z.leb_spec (8 * arr_nelems) MaxAllocSize) as [|_];
    [unfold MaxAllocSize in *; lia | reflexivity].
Qed.

Lemma postal_normalize_oversized_count_witness :
  postal_normalize
    (engine_double true true true [[x61]] 134217728 no_components)
    [x41] (Host (Some 5%nat) [])
  = (Raise (ElogError "invalid memory alloc request size"),
     Host (Some 4%nat) [Ev_expand_address]).
Proof.
  apply (postal_normalize_oversized_count
           (engine_double true true true [[x61]] 134217728 no_components)
           [x41] (Host (Some 5%nat) []) [[x61]] 134217728).
  - reflexivity.
  - vm_compute. reflexivity.
  - vm_compute. discriminate.
  - discriminate.
Defined.
